(** * Option parsing of [tools.h] (namespace [options])

    A shallow embedding of the option registry and of [options::parse],
    followed by the properties of the parser.

    - The registry [store<>::flags] is a [gmap string option_handle].
    - The variables the options refer to ([T & val]) live in a store of
      typed cells; an option holds the location of its variable.
    - [options::parse] is a [while] loop over a cursor [i]; its body is the
      function [body], the loop is [while] (with fuel) and [step] is the
      relation "one iteration that does not leave the loop". *)

From Stdlib Require Import ZArith Lia Ascii String.
From stdpp Require Import base option strings list gmap relations sorting.

Open Scope Z_scope.

Module options.

(** ** Variables bound to options *)

(** A location names one variable of the calling program. *)
Definition loc := positive.

(** The state of a [std::ofstream] as far as [open] is concerned: the file
    the stream is associated with (if it is open) and its [failbit]. *)
Record ofstream := Ofstream {
  bound_file : option string;
  failbit : bool
}.

(** [std::ofstream::open(name)]: [basic_filebuf::open] fails when the buffer
    is already open; otherwise the outcome is the one of the file system,
    given by [openable].  On success the stream state is cleared, on
    failure [failbit] is set. *)
Definition ofstream_open (openable : string → bool) (name : string)
    (f : ofstream) : ofstream :=
  match bound_file f with
  | Some _ => {| bound_file := bound_file f; failbit := true |}
  | None =>
      if openable name
      then {| bound_file := Some name; failbit := false |}
      else {| bound_file := None; failbit := true |}
  end.

(** [in >> val] for a variable of type [T], reading from a fresh
    [std::istringstream] on the token: [typed_option<T>] is a template over
    every type that has this operator. *)
Class Extractable (T : Type) := extract : string → T → T.

(** ** [operator>>] for [int]

    The extraction [in >> val] of an [int] from a fresh [std::istringstream]
    (C++11, [istream.formatted.arithmetic] and [facet.num.get.virtuals], in
    the classic locale, with the default [dec] base field):
    - the sentry skips leading white space; when nothing is left the sentry
      fails and [val] is not written;
    - otherwise an optional sign and the decimal digits that follow are
      converted; when there is no digit the value 0 is stored, and a value
      out of the range of [int] is stored as the nearest bound.
    In both failing cases [failbit] is set on the string stream, which
    [typed_option<T>::parse] drops on return. *)

Definition INT_MAX : Z := 2147483647.
Definition INT_MIN : Z := -2147483648.

Definition isspace (c : ascii) : bool :=
  let n := N_of_ascii c in
  ((n =? 32) || ((9 <=? n) && (n <=? 13)))%N.

Fixpoint skipws (s : string) : string :=
  match s with
  | String c s' => if isspace c then skipws s' else s
  | EmptyString => EmptyString
  end.

Definition digit (c : ascii) : option Z :=
  let n := Z.of_N (N_of_ascii c) in
  if bool_decide (48 ≤ n ≤ 57) then Some (n - 48) else None.

(** The value of the decimal digits in front of [s], continuing from [acc];
    [None] when no digit has been read. *)
Fixpoint digits (acc : option Z) (s : string) : option Z :=
  match s with
  | String c s' =>
      match digit c with
      | Some d => digits (Some (10 * default 0 acc + d)) s'
      | None => acc
      end
  | EmptyString => acc
  end.

Definition clamp (z : Z) : Z := Z.max INT_MIN (Z.min INT_MAX z).

(** The value [num_get] stores for the text [s] (no leading white space). *)
Definition num_get (s : string) : Z :=
  let '(negative, s') :=
    match s with
    | String c s' =>
        if bool_decide (c = "-"%char) then (true, s')
        else if bool_decide (c = "+"%char) then (false, s')
        else (false, s)
    | EmptyString => (false, s)
    end in
  match digits None s' with
  | Some n => clamp (if negative : bool then - n else n)
  | None => 0
  end.

Definition extract_int (opt : string) (val : Z) : Z :=
  match skipws opt with
  | EmptyString => val
  | s => num_get s
  end.

(** [typed_option<int>] *)
#[global] Instance int_extractable : Extractable Z := extract_int.

(** The variables of the program, by type. *)
Record store (T : Type) := Store {
  generics : gmap loc T;
  bools : gmap loc bool;
  strings : gmap loc string;
  streams : gmap loc ofstream
}.
Arguments Store {T} _ _ _ _.
Arguments generics {T} _.
Arguments bools {T} _.
Arguments strings {T} _.
Arguments streams {T} _.

(** ** Options *)

(** [struct option] and its four implementations; [val] is the reference
    to the bound variable. *)
Inductive option_handle : Type :=
  | typed_option_T (val : loc)
  | typed_option_bool (val : loc)
  | typed_option_string (val : loc)
  | typed_option_ofstream (val : loc).

#[global] Instance option_handle_eq_dec : EqDecision option_handle.
Proof. solve_decision. Defined.

(** The content of a variable, whatever its type. *)
Inductive cell (T : Type) : Type :=
  | CellT (t : T)
  | CellBool (b : bool)
  | CellString (s : string)
  | CellOfstream (f : ofstream).
Arguments CellT {T} _.
Arguments CellBool {T} _.
Arguments CellString {T} _.
Arguments CellOfstream {T} _.

(** The current content of the variable an option is bound to. *)
Definition deref {T} (σ : store T) (o : option_handle) : option (cell T) :=
  match o with
  | typed_option_T l => CellT <$> generics σ !! l
  | typed_option_bool l => CellBool <$> bools σ !! l
  | typed_option_string l => CellString <$> strings σ !! l
  | typed_option_ofstream l => CellOfstream <$> streams σ !! l
  end.

(** [store<>::flags] *)
Abbreviation registry := (gmap string option_handle).

(** [options::make]: [store<>::flags[name] = new typed_option<T>(val)]. *)
Definition make (o : option_handle) (name : string) (flags : registry)
    : registry :=
  <[name := o]> flags.

(** The variable of the option [o] registered as [name] is bound to no
    other flag: the callers of [make] wrap a variable of its own in every
    option. *)
Definition unshared (flags : registry) (name : string) (o : option_handle)
    : Prop :=
  ∀ name', flags !! name' = Some o → name' = name.

(** The options whose [parse()] answers [true]: all but the [bool] one. *)
Definition value_bearing (o : option_handle) : bool :=
  match o with
  | typed_option_bool _ => false
  | typed_option_T _ | typed_option_string _ | typed_option_ofstream _ => true
  end.

Section parser.
Context {T : Type} `{!Extractable T}.
Variable openable : string → bool.

(** [bool option::parse()]: the result tells whether a value is expected. *)
Definition parse_flag (o : option_handle) (σ : store T) : bool * store T :=
  match o with
  | typed_option_bool l =>
      (false, Store (generics σ) (alter (λ _, true) l (bools σ))
                    (strings σ) (streams σ))
  | typed_option_T _ | typed_option_string _ | typed_option_ofstream _ =>
      (true, σ)
  end.

(** [void option::parse(const std::string & opt)] *)
Definition parse_value (o : option_handle) (opt : string) (σ : store T)
    : store T :=
  match o with
  | typed_option_T l =>
      Store (alter (extract opt) l (generics σ)) (bools σ)
            (strings σ) (streams σ)
  | typed_option_bool _ => σ
  | typed_option_string l =>
      Store (generics σ) (bools σ) (alter (λ _, opt) l (strings σ))
            (streams σ)
  | typed_option_ofstream l =>
      Store (generics σ) (bools σ) (strings σ)
            (alter (ofstream_open openable opt) l (streams σ))
  end.

(** ** The parser *)

(** [argv[i][0] == '-'] *)
Definition is_flag (tok : string) : bool :=
  match tok with
  | String c _ => bool_decide (c = "-"%char)
  | EmptyString => false
  end.

(** [argv[i] + 1] *)
Definition strip (tok : string) : string :=
  match tok with
  | String _ rest => rest
  | EmptyString => EmptyString
  end.

Variable flags : registry.
(** The argument vector; [argc] is its length. *)
Variable args : list string.

Definition argc : Z := Z.of_nat (length args).

(** [argv[i]]; the loop reads it for [0 <= i < argc] only. *)
Definition argv (i : Z) : string := default EmptyString (args !! Z.to_nat i).

(** The local [i] and the variables of the program. *)
Record state := State {
  cursor : Z;
  vars : store T
}.

Inductive outcome : Type :=
  | Continue (s : state)
  | Break (s : state).

(** The body of the [while] loop of [options::parse]. *)
Definition body (s : state) : outcome :=
  let i := cursor s in
  if is_flag (argv i) then
    let opt := strip (argv i) in
    let s1 :=
      match flags !! opt with
      | Some flag =>
          let '(needs_value, σ1) := parse_flag flag (vars s) in
          if needs_value && bool_decide (i < argc - 1) then
            let i := i + 1 in
            State i (parse_value flag (argv i) σ1)
          else State i σ1
      | None => s
      end in
    Continue (State (cursor s1 + 1) (vars s1))
  else Break s.

(** [while(i < argc){ ... }]; [None] when the fuel does not suffice. *)
Fixpoint while (fuel : nat) (s : state) : option state :=
  if bool_decide (cursor s < argc) then
    match fuel with
    | O => None
    | S fuel' =>
        match body s with
        | Continue s' => while fuel' s'
        | Break s' => Some s'
        end
    end
  else Some s.

(** The state on entry of the loop: [int i = 1]. *)
Definition init (σ : store T) : state := State 1 σ.

(** [options::parse(argc, argv)]: the returned [int] is the [cursor] of the
    result, the effect on the variables is its [vars]. *)
Definition parse (σ : store T) : option state :=
  while (length args) (init σ).

(** One iteration that stays in the loop. *)
Definition step (s s' : state) : Prop :=
  cursor s < argc ∧ body s = Continue s'.

(** The states the loop goes through. *)
Definition reaches : state → state → Prop := rtc step.

(** The loop is left in [s]. *)
Definition final (s : state) : Prop :=
  argc ≤ cursor s ∨ is_flag (argv (cursor s)) = false.

(** From [s] on and before [r], no iteration resolves a flag that is bound
    to the variable of the option [o]. *)
Definition unresolved (s r : state) (o : option_handle) : Prop :=
  ∀ s1 name,
    reaches s s1 → cursor s1 < cursor r →
    argv (cursor s1) = String "-" name → flags !! name ≠ Some o.

End parser.

(** ** Showing the options: [value()], [type()] and [options::print] *)

(** [out << val] for a variable of type [T]: the text that is written. *)
Class Insertable (T : Type) := put : T → string.

(** [operator<<] for [int], with the flags of a fresh stream: the decimal
    digits, after a ['-'] for a negative number.  An [int] has at most ten
    digits. *)
Fixpoint put_digits (fuel : nat) (n : Z) (acc : string) : string :=
  match fuel with
  | O => acc
  | S fuel' =>
      let acc' := String (ascii_of_nat (48 + Z.to_nat (n mod 10))) acc in
      if bool_decide (n / 10 = 0) then acc' else put_digits fuel' (n / 10) acc'
  end.

Definition put_int (z : Z) : string :=
  if bool_decide (z < 0) then String "-" (put_digits 10 (- z) EmptyString)
  else put_digits 10 z EmptyString.

#[global] Instance int_insertable : Insertable Z := put_int.

Definition tab : string := String "009" EmptyString.
Definition newline : string := String "010" EmptyString.

(** The order of the keys of [std::map<std::string, option *>]. *)
Definition name_le (e1 e2 : string * option_handle) : Prop :=
  String.leb e1.1 e2.1 = true.

#[global] Instance name_le_dec : RelDecision name_le.
Proof. intros e1 e2. unfold name_le. apply _. Defined.

Section printing.
Context {T : Type} `{!Insertable T}.
(** [typeid(val).name()] in [typed_option<T>], [typed_option<std::string>]
    and [typed_option<std::ofstream>]: the names are the compiler's. *)
Variables name_T name_string name_ofstream : string.

(** [std::string option::value() const]; a [bool] is written as [0] or
    [1], and the [ofstream] option does not look at its stream. *)
Definition value (o : option_handle) (σ : store T) : option string :=
  match o with
  | typed_option_T l => put <$> generics σ !! l
  | typed_option_bool l =>
      (λ b : bool, if b then "1" else "0")%string <$> bools σ !! l
  | typed_option_string l => strings σ !! l
  | typed_option_ofstream _ => Some "file"%string
  end.

(** [std::string option::type() const] *)
Definition type (o : option_handle) : string :=
  match o with
  | typed_option_T _ => name_T
  | typed_option_bool _ => "bool"
  | typed_option_string _ => name_string
  | typed_option_ofstream _ => name_ofstream
  end.

Variable flags : registry.

(** The entries of [store<>::flags] as the iterator of [std::map] goes
    through them: by ascending name, the names being compared character
    by character. *)
Definition entries : list (string * option_handle) :=
  merge_sort name_le (map_to_list flags).

(** One line of the table. *)
Definition row (σ : store T) (e : string * option_handle) : option string :=
  v ← value e.2 σ;
  Some (e.1 +:+ tab +:+ v +:+ tab +:+ type e.2 +:+ newline).

Definition rows (σ : store T) : option (list string) := mapM (row σ) entries.

(** [options::print(out)]: the text written to [out]. *)
Definition print (σ : store T) : option string :=
  rs ← rows σ;
  Some ("option" +:+ tab +:+ "default" +:+ tab +:+ "type" +:+ newline
        +:+ String.concat EmptyString rs).

End printing.

End options.

Import options.

(** * The stream operators of [tools.h] (group [iostream])

    [std::vector<T>] is a list, [std::array<T, N>] a list of length [N].
    An output operator is the text it writes ([put]).  An input stream is
    the text that is left to read, with its [failbit] and [eofbit]. *)

Module iostream.

Record istream := Istream {
  rest : string;
  fail : bool;
  eof : bool
}.

(** [std::istringstream in(opt)] *)
Definition istringstream (opt : string) : istream := Istream opt false false.

(** [in.good()] *)
Definition good (i : istream) : bool := negb (fail i) && negb (eof i).

(** [in >> val] on a stream that goes on being used: the stream after the
    extraction, and [val]. *)
Class Gettable (T : Type) := get : istream → T → istream * T.

(** The decimal digits in front of [s], as [options.digits], with the text
    after them. *)
Fixpoint scan_digits (acc : option Z) (s : string) : option Z * string :=
  match s with
  | String c s' =>
      match digit c with
      | Some d => scan_digits (Some (10 * default 0 acc + d)) s'
      | None => (acc, s)
      end
  | EmptyString => (acc, EmptyString)
  end.

(** [operator>>] for [int] (see [options.extract_int]).  The sentry sets
    [failbit] on a stream that is not good, and [failbit] and [eofbit]
    when only white space is left; [val] is not written then.  Otherwise
    the sign and the digits are taken from the stream, [eofbit] is set
    when the end of the text is reached, and [failbit] when there is no
    digit (0 is stored) or the number is out of range (the bound is
    stored). *)
Definition get_int (i : istream) (val : Z) : istream * Z :=
  if good i then
    match skipws (rest i) with
    | EmptyString => (Istream EmptyString true true, val)
    | String c s' =>
        let '(negative, text) :=
          if bool_decide (c = "-"%char) then (true, s')
          else if bool_decide (c = "+"%char) then (false, s')
          else (false, String c s') in
        let '(n, rest') := scan_digits None text in
        let eof' := bool_decide (rest' = EmptyString) in
        match n with
        | Some n =>
            let z := if negative : bool then - n else n in
            (Istream rest' (bool_decide (z < INT_MIN ∨ INT_MAX < z)) eof',
             clamp z)
        | None => (Istream rest' true eof', 0)
        end
    end
  else (Istream (rest i) true (eof i), val).

#[global] Instance int_gettable : Gettable Z := get_int.

Section vector.
Context {T : Type}.

(** [operator<<(std::ostream &, const std::vector<T, A> &)]: the elements
    but the last, each followed by a blank, then the last one. *)
Definition put_vector `{!Insertable T} (v : list T) : string :=
  let out :=
    if bool_decide (1 < length v)%nat
    then foldl (λ out x, out +:+ put x +:+ " ") EmptyString
               (take (length v - 1) v)
    else EmptyString in
  match last v with
  | Some x => out +:+ put x
  | None => out
  end.

(** [operator>>(std::istream &, std::vector<T, A> &)]:
    [while(in >> temp) v.push_back(temp);].  [temp] is the local variable,
    which starts with an indeterminate content for a type like [int].
    [None] when the fuel does not suffice. *)
Fixpoint get_vector_loop `{!Gettable T} (fuel : nat) (i : istream) (temp : T)
    (v : list T) : option (istream * list T) :=
  match fuel with
  | O => None
  | S fuel' =>
      let '(i', temp') := get i temp in
      if fail i' then Some (i', v)
      else get_vector_loop fuel' i' temp' (v ++ [temp'])
  end.

(** [operator<<(std::ostream &, const std::array<T, N> &)]:
    [for(size_t i = 0; i < N-1; ++i) out << a[i] << " "; out << a[N-1];].
    For [N = 0] the bound [N-1] is the largest [size_t] and the elements
    read do not exist: the result is undefined ([None]). *)
Definition put_array `{!Insertable T} (N : Z) (a : list T) : option string :=
  if bool_decide (1 ≤ N ∧ Z.of_nat (length a) = N) then
    x ← last a;
    Some (foldl (λ out x, out +:+ put x +:+ " ") EmptyString
                (take (Z.to_nat (N - 1)) a) +:+ put x)
  else None.

(** [operator>>(std::istream &, std::array<T, N> &)]:
    [for(size_t i = 0; i < N; ++i) in >> a[i];] *)
Definition get_array `{!Gettable T} (N : Z) (i : istream) (a : list T)
    : istream * list T :=
  foldl (λ '(i, a) k,
           match a !! k with
           | Some x => let '(i', x') := get i x in (i', <[k := x']> a)
           | None => (i, a)
           end)
        (i, a) (seq 0 (Z.to_nat N)).

End vector.

(** [in >> v] for a vector of [int]: an extraction that does not fail
    takes at least one character, so the loop ends within the length of
    the text. *)
Definition get_vector (i : istream) (temp : Z) (v : list Z)
    : option (istream * list Z) :=
  get_vector_loop (S (String.length (rest i))) i temp v.

#[global] Instance vector_insertable {T} `{!Insertable T}
  : Insertable (list T) := put_vector.

(** [typed_option<std::vector<int>>::parse(opt)]: [in >> val] on a fresh
    [std::istringstream].  The content [temp] starts with plays no role
    (see [get_vector_temp]). *)
Definition vector_extractable : Extractable (list Z) :=
  λ opt val,
    match get_vector (istringstream opt) 0 val with
    | Some (_, val') => val'
    | None => val
    end.

End iostream.

Import iostream.

(** * The program of the documentation of [tools.h]

    [string test; bool yesno = false; double param = 100; ofstream log;]
    registered as [t], [y], [p] and [l].  The numeric variable is an [int]
    here. *)

Definition test : loc := 1%positive.
Definition yesno : loc := 2%positive.
Definition param : loc := 3%positive.
Definition log : loc := 4%positive.

Definition example_vars : store Z :=
  Store {[ param := 100 ]} {[ yesno := false ]} {[ test := EmptyString ]}
        {[ log := Ofstream None false ]}.

Definition example_flags : registry :=
  make (typed_option_ofstream log) "l"
    (make (typed_option_T param) "p"
       (make (typed_option_bool yesno) "y"
          (make (typed_option_string test) "t" ∅))).

(** The text of the decimal numeral with the digits [ds], most significant
    first, and the number it denotes. *)
Fixpoint decimal (ds : list nat) : string :=
  match ds with
  | [] => EmptyString
  | d :: ds' => String (ascii_of_nat (48 + d)) (decimal ds')
  end.

Definition decimal_value (ds : list nat) : Z :=
  fold_left (λ acc d, 10 * acc + Z.of_nat d) ds 0.

(** A file system in which every file can be opened. *)
Definition any_file : string → bool := λ _, true.

(** The command line of the termination example, and a registry with the
    flag [a] on the [int] variable, respectively on the [bool] one. *)
Definition positional_args : list string :=
  ["prog"; "-a"; "1"; "positional"; "-b"; "2"]%string.

Definition flags_int_a : registry := make (typed_option_T param) "a" ∅.
Definition flags_bool_a : registry := make (typed_option_bool yesno) "a" ∅.

(** The number of tokens in front of [toks] that begin with ['-']. *)
Fixpoint leading_flags (toks : list string) : nat :=
  match toks with
  | tok :: toks' => if is_flag tok then S (leading_flags toks') else O
  | [] => O
  end.

(** The number of times the character [c] occurs in [s]. *)
Fixpoint occurrences (c : ascii) (s : string) : nat :=
  match s with
  | String x s' => (if bool_decide (x = c) then 1 else 0) + occurrences c s'
  | EmptyString => 0
  end.

(** * The registry *)


Lemma make_lookup_ne o name name' (flags : registry) :
  name ≠ name' → make o name flags !! name' = flags !! name'.
Proof. apply lookup_insert_ne. Qed.


(** An option on a variable no registered option is bound to is the only
    one on its variable once registered. *)
Lemma make_unshared o name (flags : registry) :
  (∀ name', flags !! name' ≠ Some o) → unshared (make o name flags) name o.
Proof.
  intros Hfresh name' Hreg. destruct (decide (name = name')) as [|Hne]; [done|].
  rewrite make_lookup_ne in Hreg by done. by destruct (Hfresh name').
Qed.

(** * The loop of [options::parse] *)

Section loop_facts.
Context {T : Type} `{!Extractable T}.
Variable openable : string → bool.
Variable flags : registry.
Variable args : list string.

Local Abbreviation body := (body openable flags args).
Local Abbreviation while := (while openable flags args).
Local Abbreviation step := (step openable flags args).
Local Abbreviation reaches := (reaches openable flags args).
Local Abbreviation parse := (parse openable flags args).
Local Abbreviation argc := (argc args).
Local Abbreviation argv := (argv args).
Local Abbreviation final := (final (T:=T) args).
Local Abbreviation unresolved := (unresolved openable flags args).

Lemma is_flag_true tok : is_flag tok = true ↔ tok = String "-" (strip tok).
Proof.
  destruct tok as [|c rest]; simpl; [by split|].
  rewrite bool_decide_eq_true. split; [by intros ->|by intros [= ->]].
Qed.

Lemma argv_lookup (n : nat) tok : args !! n = Some tok → argv (Z.of_nat n) = tok.
Proof. intros H. unfold options.argv. by rewrite Nat2Z.id, H. Qed.

Lemma argv_lookup_lt (n : nat) tok :
  args !! n = Some tok → Z.of_nat n < argc.
Proof. intros H%lookup_lt_Some. unfold options.argc. lia. Qed.

Lemma body_break s s' :
  body s = Break s' → s' = s ∧ is_flag (argv (cursor s)) = false.
Proof.
  unfold options.body. destruct (is_flag _); [done|]. by intros [= <-].
Qed.

Lemma body_continue s s' :
  body s = Continue s' → is_flag (argv (cursor s)) = true.
Proof. unfold options.body. by destruct (is_flag _). Qed.

(** An iteration moves the cursor forward, by one or two, and not past the
    end of the arguments. *)
Lemma step_cursor s s' :
  step s s' →
  (cursor s' = cursor s + 1 ∨ cursor s' = cursor s + 2) ∧ cursor s' ≤ argc.
Proof.
  intros [Hlt Hb]. unfold options.body in Hb.
  destruct (is_flag _); [|done].
  destruct (flags !! _) as [flag|]; [|injection Hb as <-; simpl; lia].
  destruct (parse_flag flag (vars s)) as [needs σ1].
  destruct needs; simpl in Hb; [|injection Hb as <-; simpl; lia].
  case_bool_decide; injection Hb as <-; simpl; lia.
Qed.

Lemma step_det s s1 s2 : step s s1 → step s s2 → s1 = s2.
Proof. intros [_ H1] [_ H2]. congruence. Qed.

Lemma final_no_step s s' : final s → ¬ step s s'.
Proof.
  intros [Hge|Hnf] [Hlt Hb]; [lia|].
  apply body_continue in Hb. congruence.
Qed.

Lemma not_final_step s : ¬ final s → ∃ s', step s s'.
Proof.
  intros Hnf. unfold options.final in Hnf.
  assert (cursor s < argc) as Hlt by lia.
  destruct (body s) as [s'|s'] eqn:Hb; [by exists s'|].
  apply body_break in Hb as [_ Hb]. tauto.
Qed.

Lemma final_dec s : final s ∨ ¬ final s.
Proof.
  unfold options.final.
  destruct (decide (argc ≤ cursor s)); [tauto|].
  destruct (is_flag (argv (cursor s))); [right|left]; [intros [?|?]|]; auto; done.
Qed.

Lemma while_step fuel s s' : step s s' → while (S fuel) s = while fuel s'.
Proof.
  intros [Hlt Hb]. simpl. rewrite bool_decide_eq_true_2 by done. by rewrite Hb.
Qed.

Lemma while_final fuel s : final s → while (S fuel) s = Some s.
Proof.
  intros [Hge|Hnf]; simpl; case_bool_decide; try done; try lia.
  unfold options.body. by rewrite Hnf.
Qed.

(** The loop ends within [argc - i] iterations. *)
Lemma while_is_Some fuel s :
  argc - cursor s ≤ Z.of_nat fuel → is_Some (while fuel s).
Proof.
  revert s. induction fuel as [|fuel IH]; intros s Hfuel.
  - simpl. rewrite bool_decide_eq_false_2 by lia. eauto.
  - destruct (final_dec s) as [Hf|Hnf].
    + rewrite while_final by done. eauto.
    + destruct (not_final_step _ Hnf) as [s' Hs].
      rewrite (while_step _ _ _ Hs). apply IH.
      apply step_cursor in Hs. lia.
Qed.

Lemma while_reaches fuel s r : while fuel s = Some r → reaches s r ∧ final r.
Proof.
  revert s. induction fuel as [|fuel IH]; intros s; simpl.
  - case_bool_decide as Hlt; [done|]. intros [= <-].
    split; [apply rtc_refl|left; lia].
  - case_bool_decide as Hlt.
    + destruct (body s) as [s'|s'] eqn:Hb.
      * intros [Hr Hf]%IH. split; [|done]. by eapply rtc_l.
      * intros [= <-]. apply body_break in Hb as [-> Hb].
        split; [apply rtc_refl|by right].
    + intros [= <-]. split; [apply rtc_refl|left; lia].
Qed.

Lemma reaches_final_eq s r : reaches s r → final s → r = s.
Proof.
  intros Hr Hf. destruct Hr as [|s s' r Hs _]; [done|].
  by destruct (final_no_step _ _ Hf Hs).
Qed.

(** The states of a run are totally ordered. *)
Lemma reaches_linear s a b : reaches s a → reaches s b → reaches a b ∨ reaches b a.
Proof.
  intros Ha. revert b. induction Ha as [s|s s' a Hs Ha IH]; intros b Hb.
  - by left.
  - destruct Hb as [|s s'' b Hs' Hb].
    + right. by eapply rtc_l.
    + rewrite <-(step_det _ _ _ Hs Hs') in Hb. by apply IH.
Qed.

Lemma reaches_final s a r : reaches s a → reaches s r → final r → reaches a r.
Proof.
  intros Ha Hr Hf. destruct (reaches_linear _ _ _ Ha Hr) as [|Hra]; [done|].
  apply reaches_final_eq in Hra; [|done]. subst. apply rtc_refl.
Qed.

Lemma reaches_cursor s s' : reaches s s' → cursor s ≤ cursor s'.
Proof.
  induction 1 as [|s s1 s' Hs _ IH]; [lia|].
  apply step_cursor in Hs. lia.
Qed.

Lemma reaches_cursor_max s s' : reaches s s' → cursor s' ≤ Z.max (cursor s) argc.
Proof.
  induction 1 as [|s s1 s' Hs _ IH]; [lia|].
  apply step_cursor in Hs. lia.
Qed.

Lemma while_complete fuel s r :
  reaches s r → final r → argc - cursor s ≤ Z.of_nat fuel → while fuel s = Some r.
Proof.
  intros Hr Hf Hfuel. destruct (while_is_Some _ _ Hfuel) as [r' Hw].
  rewrite Hw. f_equal. apply while_reaches in Hw as [Hr' Hf'].
  apply (reaches_final _ _ _ Hr) in Hr'; [|done].
  by apply reaches_final_eq in Hr'.
Qed.

(** [parse] returns the state in which the loop started from [i = 1] is
    left. *)
Lemma parse_reaches σ r : parse σ = Some r ↔ reaches (init σ) r ∧ final r.
Proof.
  split; [apply while_reaches|]. intros [Hr Hf].
  apply while_complete; [done..|]. unfold options.argc. simpl. lia.
Qed.

Lemma parse_is_Some σ : is_Some (parse σ).
Proof. apply while_is_Some. unfold options.argc. simpl. lia. Qed.

(** ** What one iteration does *)

Lemma parse_flag_value_bearing (o : option_handle) (σ : store T) :
  value_bearing o = true → parse_flag o σ = (true, σ).
Proof. by destruct o. Qed.

Lemma parse_flag_bool l (σ : store T) :
  parse_flag (typed_option_bool l) σ =
  (false, Store (generics σ) (alter (λ _, true) l (bools σ)) (strings σ) (streams σ)).
Proof. done. Qed.

(** A flag that is not registered: the token is skipped. *)
Lemma body_unknown s name :
  argv (cursor s) = String "-" name → flags !! name = None →
  body s = Continue (State (cursor s + 1) (vars s)).
Proof.
  intros Htok Hnone. unfold options.body. rewrite Htok. simpl.
  by rewrite Hnone.
Qed.

(** A registered [bool] flag: the variable is set, one token is read. *)
Lemma body_bool s name l :
  argv (cursor s) = String "-" name →
  flags !! name = Some (typed_option_bool l) →
  body s = Continue (State (cursor s + 1) (snd (parse_flag (typed_option_bool l) (vars s)))).
Proof.
  intros Htok Hl. unfold options.body. rewrite Htok. simpl.
  by rewrite Hl.
Qed.

(** A registered flag that takes a value, followed by another token. *)
Lemma body_value s name flag :
  argv (cursor s) = String "-" name → flags !! name = Some flag →
  value_bearing flag = true → cursor s < argc - 1 →
  body s = Continue (State (cursor s + 2)
                       (parse_value openable flag (argv (cursor s + 1)) (vars s))).
Proof.
  intros Htok Hl Hv Hlt. unfold options.body. rewrite Htok. simpl.
  rewrite Hl, (parse_flag_value_bearing _ _ Hv). simpl.
  rewrite bool_decide_eq_true_2 by done. simpl. do 2 f_equal. lia.
Qed.

(** A registered flag that takes a value, as the last token. *)
Lemma body_value_last s name flag :
  argv (cursor s) = String "-" name → flags !! name = Some flag →
  value_bearing flag = true → cursor s = argc - 1 →
  body s = Continue (State argc (vars s)).
Proof.
  intros Htok Hl Hv Hlast. unfold options.body. rewrite Htok. simpl.
  rewrite Hl, (parse_flag_value_bearing _ _ Hv). simpl.
  rewrite bool_decide_eq_false_2 by lia. simpl. f_equal. f_equal. lia.
Qed.

(** ** Variables of other options *)

Lemma parse_flag_deref (o h : option_handle) (σ : store T) :
  o ≠ h → deref (snd (parse_flag o σ)) h = deref σ h.
Proof.
  intros Hne. destruct o as [l|l|l|l]; try done.
  destruct h as [l'|l'|l'|l']; simpl; try done.
  rewrite lookup_alter_ne; [done|congruence].
Qed.

Lemma parse_value_deref (o h : option_handle) opt (σ : store T) :
  o ≠ h → deref (parse_value openable o opt σ) h = deref σ h.
Proof.
  intros Hne.
  destruct o as [l|l|l|l], h as [l'|l'|l'|l']; simpl; try done;
    rewrite lookup_alter_ne; (done || congruence).
Qed.

(** An iteration writes at most the variable of the option it resolved. *)
Lemma step_frame s s' h :
  step s s' →
  (∀ name, argv (cursor s) = String "-" name → flags !! name ≠ Some h) →
  deref (vars s') h = deref (vars s) h.
Proof.
  intros [_ Hb] Hh. pose proof (body_continue _ _ Hb) as Htok.
  apply is_flag_true in Htok. specialize (Hh _ Htok).
  unfold options.body in Hb. rewrite Htok in Hb. simpl in Hb.
  destruct (flags !! strip (argv (cursor s))) as [flag|]; [|by injection Hb as <-].
  assert (flag ≠ h) as Hne by congruence.
  pose proof (parse_flag_deref flag h (vars s) Hne) as Hpf.
  destruct (parse_flag flag (vars s)) as [needs σ1]. simpl in Hpf.
  destruct (needs && _); injection Hb as <-; simpl; [|done].
  by rewrite parse_value_deref.
Qed.

(** A run writes at most the variables of the options resolved on the
    way: the tokens at the cursor of the states before the last one. *)
Lemma reaches_frame s r h :
  reaches s r → unresolved s r h → deref (vars r) h = deref (vars s) h.
Proof.
  intros Hr. revert r Hr.
  apply (rtc_ind_r (λ r, unresolved s r h →
                         deref (vars r) h = deref (vars s) h)); [done|].
  intros r r' Hr Hs IH Hh.
  pose proof (step_cursor _ _ Hs) as [Hc _].
  rewrite <-IH.
  - apply step_frame; [done|]. intros name. apply Hh; [done|lia].
  - intros s1 name Hs1 Hlt. apply Hh; [done|lia].
Qed.

Lemma parse_untouched σ r h :
  parse σ = Some r → unresolved (init σ) r h → deref (vars r) h = deref σ h.
Proof. intros [Hr _]%parse_reaches. by apply (reaches_frame (init σ) r h). Qed.

(** The loop goes on from the successor of a state it went through. *)
Lemma step_next s s' r : reaches s r → final r → step s s' → reaches s' r.
Proof.
  intros Hr Hf Hs. destruct Hr as [|s s'' r Hs' Hr].
  - by destruct (final_no_step _ _ Hf Hs).
  - by rewrite (step_det _ _ _ Hs Hs').
Qed.

(** The iteration on a flag that takes a value and is followed by one. *)
Lemma value_step σ s (i : nat) name flag value :
  flags !! name = Some flag → value_bearing flag = true →
  reaches (init σ) s → cursor s = Z.of_nat i →
  args !! i = Some (String "-" name) → args !! S i = Some value →
  let s' := State (cursor s + 2) (parse_value openable flag value (vars s)) in
  body s = Continue s' ∧ step s s' ∧ reaches (init σ) s'
  ∧ (∀ r, parse σ = Some r → reaches s' r)
  ∧ (final s' → parse σ = Some s')
  ∧ (∀ r, parse σ = Some r → unresolved s' r flag →
       deref (vars r) flag = deref (vars s') flag).
Proof.
  intros Hreg Hv Hs Hi Htok Hval s'.
  pose proof (argv_lookup_lt _ _ Hval) as Hlt.
  assert (argv (cursor s) = String "-" name) as Htok'
    by (rewrite Hi; by apply argv_lookup).
  assert (argv (cursor s + 1) = value) as Hval'.
  { replace (cursor s + 1) with (Z.of_nat (S i)) by lia. by apply argv_lookup. }
  pose proof (body_value s name _ Htok' Hreg Hv ltac:(lia)) as Hbody.
  rewrite Hval' in Hbody.
  assert (step s s') as Hstep by (split; [lia|done]).
  assert (reaches (init σ) s') as Hs' by (by eapply rtc_r).
  assert (∀ r, parse σ = Some r → reaches s' r) as Hnext.
  { intros r [Hr Hf]%parse_reaches.
    eapply step_next; [|exact Hf|exact Hstep].
    by eapply reaches_final. }
  split_and!; try done.
  - intros Hf. by apply parse_reaches.
  - intros r Hp Hun. apply reaches_frame; [by apply Hnext|done].
Qed.

(** No option resets a [bool] variable. *)
Lemma step_bool_true s s' l :
  step s s' → bools (vars s) !! l = Some true → bools (vars s') !! l = Some true.
Proof.
  intros [_ Hb] Hl. unfold options.body in Hb.
  destruct (is_flag _); [|done].
  destruct (flags !! _) as [flag|]; [|by injection Hb as <-].
  assert (bools (snd (parse_flag flag (vars s))) !! l = Some true) as Hpf.
  { destruct flag as [l'|l'|l'|l']; simpl; try done.
    destruct (decide (l' = l)) as [->|Hne].
    - by rewrite lookup_alter_eq, Hl.
    - by rewrite lookup_alter_ne. }
  destruct (parse_flag flag (vars s)) as [needs σ1]. simpl in Hpf.
  destruct (needs && _); injection Hb as <-; simpl; [|done].
  by destruct flag.
Qed.

Lemma reaches_bool_true s r l :
  reaches s r → bools (vars s) !! l = Some true → bools (vars r) !! l = Some true.
Proof.
  induction 1 as [|s s' r Hs _ IH]; [done|].
  intros Hl. apply IH. by eapply step_bool_true.
Qed.

(** A token the loop reads is one of the arguments. *)
Lemma argv_Some i c rest :
  argv i = String c rest → args !! Z.to_nat i = Some (String c rest).
Proof.
  unfold options.argv. destruct (args !! Z.to_nat i) as [tok|]; [|done].
  simpl. by intros ->.
Qed.

Lemma argv_elem_of i c rest : argv i = String c rest → String c rest ∈ args.
Proof. intros H%argv_Some. by eapply list_elem_of_lookup_2. Qed.

Lemma argv_in_range i c rest : 0 ≤ i → argv i = String c rest → i < argc.
Proof.
  intros Hi H%argv_Some%lookup_lt_Some. unfold options.argc. lia.
Qed.

End loop_facts.

(** * The claims about [options::parse] *)

Section claims.
Context {T : Type} `{!Extractable T}.
Variable openable : string → bool.
Variable flags : registry.

Local Abbreviation body := (body openable flags).
Local Abbreviation while := (while openable flags).
Local Abbreviation step := (step openable flags).
Local Abbreviation reaches := (reaches openable flags).
Local Abbreviation parse := (parse openable flags).

(** C1: whatever the arguments, [parse] starts with its cursor at index 1
    and returns the cursor [i] at which the loop is left: [i] is at (or
    past) the end of the arguments or [argv[i]] does not begin with ['-'],
    and at every cursor position the loop went through before, the token
    does begin with ['-'].  The returned index lies between 1 and [argc]
    (it is 1 for an empty argument vector). *)
Theorem parse_returns_first_non_flag (args : list string) (σ : store T) :
  ∃ r, parse args σ = Some r
    ∧ cursor (init σ) = 1
    ∧ reaches args (init σ) r
    ∧ (argc args ≤ cursor r ∨ is_flag (argv args (cursor r)) = false)
    ∧ (∀ s, reaches args (init σ) s → cursor s < cursor r →
         cursor s < argc args ∧ is_flag (argv args (cursor s)) = true)
    ∧ 1 ≤ cursor r ≤ Z.max 1 (argc args).
Proof.
  destruct (parse_is_Some openable flags args σ) as [r Hp].
  exists r. pose proof Hp as [Hr Hf]%parse_reaches.
  split_and!; try done.
  - intros s Hs Hlt.
    pose proof (reaches_final _ _ _ _ _ _ Hs Hr Hf) as Hsr.
    destruct Hsr as [|s s' r [Hlt' Hb] _]; [lia|].
    split; [done|]. by eapply body_continue.
  - apply reaches_cursor in Hr. simpl in Hr. lia.
  - apply reaches_cursor_max in Hr. simpl in Hr. lia.
Qed.

(** C9: [parse] terminates for all arguments and every registry: the loop
    is left within [argc - i] iterations when entered with cursor [i], so
    the fuel [parse] runs with always suffices, and every iteration that
    stays in the loop moves the cursor strictly forward without passing
    the end. *)
Theorem parse_terminates (args : list string) (σ : store T) :
  is_Some (parse args σ)
  ∧ (∀ fuel s, argc args - cursor s ≤ Z.of_nat fuel → is_Some (while args fuel s))
  ∧ (∀ s s', cursor s < argc args → body args s = Continue s' →
       cursor s < cursor s' ≤ argc args).
Proof.
  split_and!.
  - apply parse_is_Some.
  - apply while_is_Some.
  - intros s s' Hlt Hb.
    destruct (step_cursor openable flags args s s') as [? ?]; [done|lia].
Qed.


(** C2 (amended): on [prog -a 1 positional -b 2] with [a] registered,
    [parse] stops at the first token that is not a flag, whatever comes
    later.  When [a] takes a value, the value is ["1"] and the returned
    cursor is 3, the index of ["positional"]; when [a] is a [bool] flag the
    returned cursor is 2, the index of ["1"]. *)
Theorem positional_stops_parse (a : option_handle) (σ : store T) :
  flags !! "a"%string = Some a →
  ∃ r, parse positional_args σ = Some r ∧
    if value_bearing a
    then cursor r = 3 ∧ positional_args !! 3%nat = Some "positional"%string
         ∧ vars r = parse_value openable a "1" σ
    else cursor r = 2 ∧ positional_args !! 2%nat = Some "1"%string
         ∧ vars r = snd (parse_flag a σ).
Proof.
  intros Ha. destruct (value_bearing a) eqn:Hv.
  - exists (State 3 (parse_value openable a "1" σ)). split; [|done].
    apply parse_reaches. split; [|by right].
    eapply rtc_l; [|apply rtc_refl]. split; [done|].
    by apply (body_value openable flags positional_args (init σ) "a" a).
  - destruct a as [l|l|l|l]; try done.
    exists (State 2 (snd (parse_flag (typed_option_bool l) σ))). split; [|done].
    apply parse_reaches. split; [|by right].
    eapply rtc_l; [|apply rtc_refl]. split; [done|].
    by apply (body_bool openable flags positional_args (init σ) "a" l).
Qed.

(** C10: [parse] writes only the variables of the options it resolved.  A
    variable is the same after [parse] as before when no token resolved at
    the cursor names an option bound to it; so the variable of a registered
    flag whose token is never resolved at the cursor is unchanged, provided
    no other flag is bound to the same variable (each option wraps a variable
    of its own). *)
Theorem parse_frame (args : list string) (σ : store T) (r : state) :
  parse args σ = Some r →
  (∀ h, unresolved openable flags args (init σ) r h →
        deref (vars r) h = deref σ h)
  ∧ (∀ name h,
       flags !! name = Some h → unshared flags name h →
       (∀ s, reaches args (init σ) s → cursor s < cursor r →
          argv args (cursor s) ≠ String "-" name) →
       deref (vars r) h = deref σ h).
Proof.
  intros Hp.
  assert (∀ h, unresolved openable flags args (init σ) r h →
               deref (vars r) h = deref σ h) as Hframe.
  { intros h. by apply parse_untouched. }
  split; [done|].
  intros name h Hreg Honly Hnever. apply Hframe.
  intros s name' Hs Hlt Htok Hreg'.
  apply Honly in Hreg' as ->. by eapply Hnever.
Qed.

(** C4: a registered [bool] flag.  When its token is not among the
    arguments (and no other flag is bound to its variable), [parse]
    returns and the variable is what it was before; registering the flag
    with [make] does not touch the variables either, it only changes the
    registry.  When the loop comes to its token, [parse()] on the option
    answers [false] and has set the variable to [true], the cursor moves
    on by exactly one, and [parse] returns with the variable [true]. *)
Theorem bool_flag (name : string) (l : loc) :
  flags !! name = Some (typed_option_bool l) →
  (unshared flags name (typed_option_bool l) →
   ∀ args (σ : store T),
     String "-" name ∉ args →
     ∃ r, parse args σ = Some r
        ∧ bools (vars r) !! l = bools σ !! l)
  ∧ (∀ args (σ : store T) s b,
       reaches args (init σ) s →
       argv args (cursor s) = String "-" name →
       bools (vars s) !! l = Some b →
       ∃ σ1, parse_flag (typed_option_bool l) (vars s) = (false, σ1)
         ∧ bools σ1 !! l = Some true
         ∧ body args s = Continue (State (cursor s + 1) σ1)
         ∧ ∃ r, parse args σ = Some r
              ∧ reaches args (State (cursor s + 1) σ1) r
              ∧ bools (vars r) !! l = Some true).
Proof.
  intros Hreg. split.
  - intros Honly args σ Habsent.
    destruct (parse_is_Some openable flags args σ) as [r Hp].
    exists r. split; [done|].
    assert (deref (vars r) (typed_option_bool l) = deref σ (typed_option_bool l))
      as Heq.
    { eapply parse_untouched; [exact Hp|].
      intros s name' _ _ Htok Hreg'. apply Honly in Hreg' as ->.
      by apply argv_elem_of in Htok. }
    simpl in Heq.
    destruct (bools (vars r) !! l), (bools σ !! l); by simplify_eq/=.
  - intros args σ s b Hs Htok Hb.
    assert (cursor s < argc args) as Hlt.
    { eapply argv_in_range; [|exact Htok].
      apply reaches_cursor in Hs. simpl in Hs. lia. }
    eexists. split; [apply parse_flag_bool|]. simpl.
    split; [by rewrite lookup_alter_eq, Hb|].
    pose proof (body_bool openable flags args s name l Htok Hreg) as Hbody.
    split; [done|].
    destruct (parse_is_Some openable flags args σ) as [r Hp].
    exists r. split; [done|].
    apply parse_reaches in Hp as [Hr Hf].
    pose proof (reaches_final _ _ _ _ _ _ Hs Hr Hf) as Hsr.
    assert (reaches args
              (State (cursor s + 1)
                 (snd (parse_flag (typed_option_bool l) (vars s)))) r)
      as Hnext.
    { eapply step_next; [exact Hsr|exact Hf|]. split; [done|exact Hbody]. }
    split; [exact Hnext|].
    eapply reaches_bool_true; [exact Hnext|].
    simpl. by rewrite lookup_alter_eq, Hb.
Qed.

(** C5: a registered string flag.  When the loop comes to the token
    [-name] and a token [value] follows it, the iteration stores [value]
    as it is in the bound variable and moves the cursor by exactly two,
    over both tokens.  The loop goes on from there; the variable still
    holds [value] when [parse] returns, unless a later token at the cursor
    names a flag bound to it; when the loop is left right after the two
    tokens, that state is the result of [parse]. *)
Theorem string_flag_value (name : string) (l : loc) (args : list string)
    (σ : store T) (s : state) (i : nat) (value old : string) :
  flags !! name = Some (typed_option_string l) →
  reaches args (init σ) s → cursor s = Z.of_nat i →
  args !! i = Some (String "-" name) → args !! S i = Some value →
  strings (vars s) !! l = Some old →
  ∃ s', body args s = Continue s'
    ∧ cursor s' = cursor s + 2
    ∧ strings (vars s') !! l = Some value
    ∧ (∀ r, parse args σ = Some r → reaches args s' r)
    ∧ (∀ r, parse args σ = Some r →
         unresolved openable flags args s' r (typed_option_string l) →
         strings (vars r) !! l = Some value)
    ∧ (final args s' → parse args σ = Some s').
Proof.
  intros Hreg Hs Hi Htok Hval Hold.
  destruct (value_step openable flags args σ s i name _ value Hreg eq_refl
              Hs Hi Htok Hval) as (Hbody & _ & _ & Hnext & Hlast & Hkeep).
  eexists. split; [exact Hbody|]. simpl.
  assert (alter (λ _, value) l (strings (vars s)) !! l = Some value) as Hnew
    by (by rewrite lookup_alter_eq, Hold).
  split_and!; try done.
  intros r Hp Hun. specialize (Hkeep r Hp Hun). simpl in Hkeep.
  rewrite Hnew in Hkeep. destruct (strings (vars r) !! l); by simplify_eq/=.
Qed.

(** C7: a registered flag that takes a value, as the last argument.  When
    the loop comes to it, no value is read and no variable is written: the
    iteration only moves the cursor to [argc], which [parse] returns
    together with the variables as they were when the loop came to the
    token.  When the token does not occur earlier among the arguments (and
    the flag's variable is bound to no other flag), the variable has the
    value it had before [parse]. *)
Theorem value_flag_last (name : string) (flag : option_handle)
    (args : list string) (σ : store T) (s : state) :
  flags !! name = Some flag → value_bearing flag = true →
  reaches args (init σ) s → cursor s = argc args - 1 →
  argv args (cursor s) = String "-" name →
  body args s = Continue (State (argc args) (vars s))
  ∧ parse args σ = Some (State (argc args) (vars s))
  ∧ (unshared flags name flag →
     String "-" name ∉ take (length args - 1) args →
     ∀ r, parse args σ = Some r → deref (vars r) flag = deref σ flag).
Proof.
  intros Hreg Hv Hs Hlast Htok.
  pose proof (body_value_last openable flags args s name flag Htok Hreg Hv Hlast)
    as Hbody.
  assert (parse args σ = Some (State (argc args) (vars s))) as Hp.
  { apply parse_reaches. split; [|left; simpl; lia].
    eapply rtc_r; [exact Hs|]. split; [lia|done]. }
  split_and!; [done..|].
  intros Honly Hearlier r Hr. rewrite Hp in Hr. injection Hr as <-. simpl.
  apply (reaches_frame openable flags args (init σ) s flag Hs).
  intros s1 name' Hs1 Hlt1 Htok1 Hreg1. apply Honly in Hreg1 as ->.
  apply Hearlier. apply argv_Some in Htok1.
  apply reaches_cursor in Hs1. simpl in Hs1.
  eapply list_elem_of_lookup_2. rewrite lookup_take_lt; [exact Htok1|].
  unfold options.argc in Hlast. lia.
Qed.

End claims.

(** * Options on [int] variables *)

(** A token that starts with a character that is neither white space, nor a
    sign, nor a digit: the conversion fails and 0 is stored. *)
Lemma extract_int_no_number c rest old :
  isspace c = false → digit c = None → c ≠ "-"%char → c ≠ "+"%char →
  extract_int (String c rest) old = 0.
Proof.
  intros Hsp Hd Hm Hp. unfold extract_int. simpl. rewrite Hsp.
  unfold num_get. rewrite !bool_decide_eq_false_2 by done.
  simpl. by rewrite Hd.
Qed.

(** A token with something else than white space in it: the old value of
    the variable plays no role. *)
Lemma extract_int_overwrites opt old :
  skipws opt ≠ EmptyString → extract_int opt old = num_get (skipws opt).
Proof. unfold extract_int. by destruct (skipws opt). Qed.

Lemma decimal_char d :
  (d < 10)%nat →
  let c := ascii_of_nat (48 + d) in
  isspace c = false ∧ c ≠ "-"%char ∧ c ≠ "+"%char
  ∧ digit c = Some (Z.of_nat d).
Proof.
  intros Hd. do 10 (destruct d as [|d]; [by split_and!|]). lia.
Qed.

Lemma digits_decimal acc ds :
  Forall (λ d, (d < 10)%nat) ds →
  digits (Some acc) (decimal ds)
  = Some (fold_left (λ acc d, 10 * acc + Z.of_nat d) ds acc).
Proof.
  intros Hds. revert acc. induction Hds as [|d ds Hd _ IH]; intros acc; [done|].
  destruct (decimal_char d Hd) as (_ & _ & _ & Hdig).
  cbn [decimal digits fold_left]. rewrite Hdig. apply IH.
Qed.

(** A token that is a decimal numeral converts to its number, cut to the
    range of [int]. *)
Lemma extract_int_decimal d ds old :
  Forall (λ d, (d < 10)%nat) (d :: ds) →
  extract_int (decimal (d :: ds)) old = clamp (decimal_value (d :: ds)).
Proof.
  intros Hds. pose proof (Forall_inv Hds) as Hd. simpl in Hd.
  destruct (decimal_char d Hd) as (Hsp & Hm & Hp & Hdig).
  unfold extract_int. cbn [decimal skipws]. rewrite Hsp.
  unfold num_get. rewrite !bool_decide_eq_false_2 by done.
  cbn [digits]. rewrite Hdig.
  rewrite digits_decimal by (by eapply Forall_inv_tail). reflexivity.
Qed.

Section int_claims.
Variable openable : string → bool.
Variable flags : registry.

Local Abbreviation body := (body (T:=Z) openable flags).
Local Abbreviation reaches := (reaches (T:=Z) openable flags).
Local Abbreviation parse := (parse (T:=Z) openable flags).

(** C6 (amended): a registered [int] flag.  When the loop comes to the
    token [-name] and a token [value] follows it, the iteration moves the
    cursor by two and stores what [in >> val] extracts from [value]: 42
    for ["42"] (and, for every decimal numeral, its number cut to the range
    of [int]), and 0 for ["abc"] and for every other token that starts
    with a character that is neither white space, a sign nor a digit.  The
    variable is overwritten with 0, it does not keep its old value.
    [parse] goes on as after any other value and returns as usual: no
    error reaches the caller. *)
Theorem int_flag_value (name : string) (l : loc) (args : list string)
    (σ : store Z) (s : state) (i : nat) (value : string) (old : Z) :
  flags !! name = Some (typed_option_T l) →
  reaches args (init σ) s → cursor s = Z.of_nat i →
  args !! i = Some (String "-" name) → args !! S i = Some value →
  generics (vars s) !! l = Some old →
  ∃ s', body args s = Continue s'
    ∧ cursor s' = cursor s + 2
    ∧ generics (vars s') !! l = Some (extract_int value old)
    ∧ (value = "42"%string → generics (vars s') !! l = Some 42)
    ∧ (∀ d ds, value = decimal (d :: ds) →
         Forall (λ d, (d < 10)%nat) (d :: ds) →
         generics (vars s') !! l = Some (clamp (decimal_value (d :: ds))))
    ∧ (value = "abc"%string → generics (vars s') !! l = Some 0)
    ∧ (∀ c rest, value = String c rest → isspace c = false →
         digit c = None → c ≠ "-"%char → c ≠ "+"%char →
         generics (vars s') !! l = Some 0)
    ∧ (∀ r, parse args σ = Some r → reaches args s' r)
    ∧ (∀ r, parse args σ = Some r →
         unresolved openable flags args s' r (typed_option_T l) →
         generics (vars r) !! l = Some (extract_int value old))
    ∧ (final args s' → parse args σ = Some s')
    ∧ is_Some (parse args σ).
Proof.
  intros Hreg Hs Hi Htok Hval Hold.
  destruct (value_step openable flags args σ s i name _ value Hreg eq_refl
              Hs Hi Htok Hval) as (Hbody & _ & _ & Hnext & Hlast & Hkeep).
  eexists. split; [exact Hbody|]. simpl.
  assert (alter (extract value) l (generics (vars s)) !! l
          = Some (extract_int value old)) as Hnew
    by (by rewrite lookup_alter_eq, Hold).
  split_and!; try done.
  - by intros ->.
  - intros d ds Hnum Hds. rewrite Hnew, Hnum. f_equal.
    by apply extract_int_decimal.
  - by intros ->.
  - intros c rest -> Hsp Hd Hm Hp. by rewrite Hnew, extract_int_no_number.
  - intros r Hp Hun. specialize (Hkeep r Hp Hun). simpl in Hkeep.
    rewrite Hnew in Hkeep. destruct (generics (vars r) !! l); by simplify_eq/=.
  - apply parse_is_Some.
Qed.

(** C8 (amended): a registered flag that takes a value, with the tokens
    [-name v1 -name v2] at the cursor.  The loop reads the four tokens in
    two iterations, the second value being stored after the first.
    - A string variable then holds [v2].
    - An [int] variable holds the number extracted from [v2], whatever
      [v1] was, as soon as [v2] is not only white space.
    - A closed [ofstream] that could open [v1] stays on [v1]: the second
      [open] fails, the stream being open already. *)
Theorem last_value_wins (name : string) (flag : option_handle)
    (args : list string) (σ : store Z) (s : state) (i : nat)
    (v1 v2 : string) :
  flags !! name = Some flag → value_bearing flag = true →
  reaches args (init σ) s → cursor s = Z.of_nat i →
  args !! i = Some (String "-" name) → args !! (i + 1)%nat = Some v1 →
  args !! (i + 2)%nat = Some (String "-" name) →
  args !! (i + 3)%nat = Some v2 →
  ∃ s', reaches args s s'
    ∧ cursor s' = cursor s + 4
    ∧ vars s' = parse_value openable flag v2
                  (parse_value openable flag v1 (vars s))
    ∧ (final args s' → parse args σ = Some s')
    ∧ match flag with
      | typed_option_string l =>
          is_Some (strings (vars s) !! l) →
          strings (vars s') !! l = Some v2
      | typed_option_T l =>
          is_Some (generics (vars s) !! l) → skipws v2 ≠ EmptyString →
          generics (vars s') !! l = Some (num_get (skipws v2))
      | typed_option_ofstream l =>
          ∀ f, streams (vars s) !! l = Some f → bound_file f = None →
               openable v1 = true →
               bound_file <$> streams (vars s') !! l = Some (Some v1)
      | typed_option_bool _ => True
      end.
Proof.
  intros Hreg Hv Hs Hi Htok1 Hv1 Htok2 Hv2.
  replace (i + 1)%nat with (S i) in Hv1 by lia.
  replace (i + 3)%nat with (S (i + 2)) in Hv2 by lia.
  destruct (value_step openable flags args σ s i name _ v1 Hreg Hv
              Hs Hi Htok1 Hv1) as (_ & Hstep1 & Hs1 & _ & _ & _).
  set (s1 := State (cursor s + 2) (parse_value openable flag v1 (vars s)))
    in *.
  destruct (value_step openable flags args σ s1 (i + 2) name _ v2 Hreg Hv
              Hs1 ltac:(simpl; lia) Htok2 Hv2)
    as (_ & Hstep2 & _ & _ & Hlast & _).
  set (s2 := State (cursor s1 + 2) (parse_value openable flag v2 (vars s1)))
    in *.
  exists s2. split_and!.
  - eapply rtc_l; [exact Hstep1|]. by apply rtc_once.
  - simpl. lia.
  - done.
  - done.
  - destruct flag as [l|l|l|l]; simpl; try done.
    + intros [old Hold] Hns. rewrite !lookup_alter_eq, Hold. simpl.
      f_equal. by apply extract_int_overwrites.
    + intros [old Hold]. by rewrite !lookup_alter_eq, Hold.
    + intros f Hf Hclosed Hopen. rewrite !lookup_alter_eq, Hf. simpl.
      unfold ofstream_open at 2. rewrite Hclosed, Hopen.
      by unfold ofstream_open.
Qed.

End int_claims.

(** * Instances on the program of the documentation *)

(** [prog -t hello -y -p 42 -l out.txt input -y]: the four options are set
    and [parse] returns 8, the index of [input]; the [-y] after it is not
    read. *)
Example documentation_run :
  parse any_file example_flags
    ["prog"; "-t"; "hello"; "-y"; "-p"; "42"; "-l"; "out.txt"; "input"; "-y"]%string
    example_vars
  = Some (State 8 (Store {[ param := 42 ]} {[ yesno := true ]}
                         {[ test := "hello"%string ]}
                         {[ log := Ofstream (Some "out.txt"%string) false ]})).
Proof. reflexivity. Qed.

(** A token after a flag that takes a value is its value, also when it
    starts with ['-']. *)
Example flag_as_value :
  parse any_file example_flags ["prog"; "-t"; "-y"]%string example_vars
  = Some (State 3 (Store {[ param := 100 ]} {[ yesno := false ]}
                         {[ test := "-y"%string ]}
                         {[ log := Ofstream None false ]})).
Proof. reflexivity. Qed.

(** Without arguments the loop is not entered and 1 is returned. *)
Example no_arguments :
  parse any_file example_flags [] example_vars = Some (State 1 example_vars).
Proof. reflexivity. Qed.

Example extract_int_samples :
  extract_int "42" 100 = 42 ∧ extract_int " -17x" 100 = -17
  ∧ extract_int "+5" 100 = 5 ∧ extract_int "abc" 100 = 0
  ∧ extract_int "-" 100 = 0 ∧ extract_int "" 100 = 100
  ∧ extract_int "  " 100 = 100 ∧ extract_int "99999999999" 100 = INT_MAX
  ∧ extract_int "-99999999999" 100 = INT_MIN.
Proof. by split_and!. Qed.

(** Every variable of the example is bound to one flag only. *)
Lemma example_flags_unshared name h :
  example_flags !! name = Some h → unshared example_flags name h.
Proof.
  intros Hreg name'. revert Hreg. unfold example_flags, make.
  rewrite !lookup_insert_Some, !lookup_empty. intuition congruence.
Qed.


(** C2 with an [int] flag [a]: [parse] returns 3 on the termination
    example. *)
Lemma positional_stops_parse_witness :
  flags_int_a !! "a"%string = Some (typed_option_T param)
  ∧ ∃ r, parse any_file flags_int_a positional_args example_vars = Some r
      ∧ cursor r = 3
      ∧ positional_args !! 3%nat = Some "positional"%string
      ∧ vars r = parse_value any_file (typed_option_T param) "1" example_vars.
Proof.
  split; [reflexivity|].
  apply (positional_stops_parse any_file flags_int_a (typed_option_T param)
           example_vars).
  reflexivity.
Defined.

(** C2 as stated fails: the returned index is not 2 where 2 would be the
    index of ["positional"]: with a flag [a] that takes a value the index is 3, and
    with a [bool] flag [a] the index 2 is the one of ["1"]. *)
Lemma positional_index_not_2 :
  ¬ (∃ r, parse any_file flags_int_a positional_args example_vars = Some r
        ∧ cursor r = 2)
  ∧ ¬ (∃ r, parse any_file flags_bool_a positional_args example_vars = Some r
          ∧ positional_args !! Z.to_nat (cursor r) = Some "positional"%string).
Proof.
  split; intros (r & Hp & Hr); vm_compute in Hp; injection Hp as <-;
    discriminate Hr.
Qed.

(** C4 on [prog -t x], where [parse] returns with [yesno] as it was, and
    on [prog -y], where [parse] returns with [yesno] set. *)
Lemma bool_flag_witness :
  example_flags !! "y"%string = Some (typed_option_bool yesno)
  ∧ (∃ r, parse any_file example_flags ["prog"; "-t"; "x"]%string example_vars
          = Some r
        ∧ bools (vars r) !! yesno = bools example_vars !! yesno)
  ∧ ∃ σ1, parse_flag (typed_option_bool yesno) example_vars = (false, σ1)
      ∧ bools σ1 !! yesno = Some true
      ∧ body any_file example_flags ["prog"; "-y"]%string (init example_vars)
        = Continue (State 2 σ1)
      ∧ ∃ r, parse any_file example_flags ["prog"; "-y"]%string example_vars
             = Some r
           ∧ reaches any_file example_flags ["prog"; "-y"]%string
               (State 2 σ1) r
           ∧ bools (vars r) !! yesno = Some true.
Proof.
  split; [reflexivity|].
  pose proof (bool_flag any_file example_flags "y" yesno eq_refl)
    as [Habsent Hpresent].
  split.
  - apply Habsent; [by apply example_flags_unshared|]. vm_compute.
    intros H. repeat (apply elem_of_cons in H as [H|H]; [discriminate H|]).
    by apply elem_of_nil in H.
  - apply (Hpresent ["prog"; "-y"]%string example_vars (init example_vars)
             false); [apply rtc_refl|reflexivity..].
Defined.

(** C5 on [prog -t a,b=c]: the string is stored as it is. *)
Lemma string_flag_value_witness :
  example_flags !! "t"%string = Some (typed_option_string test)
  ∧ ∃ s', body any_file example_flags ["prog"; "-t"; "a,b=c"]%string
            (init example_vars) = Continue s'
      ∧ cursor s' = 1 + 2
      ∧ strings (vars s') !! test = Some "a,b=c"%string
      ∧ parse any_file example_flags ["prog"; "-t"; "a,b=c"]%string
          example_vars = Some s'.
Proof.
  split; [reflexivity|].
  destruct (string_flag_value any_file example_flags "t" test
              ["prog"; "-t"; "a,b=c"]%string example_vars (init example_vars)
              1 "a,b=c" EmptyString)
    as (s' & Hbody & Hc & Hv & _ & _ & Hlast);
    [reflexivity|apply rtc_refl|reflexivity..|].
  exists s'. split_and!; [exact Hbody|exact Hc|exact Hv|].
  apply Hlast. left. rewrite Hc. reflexivity.
Defined.

(** C7 on [prog -p]: the value of [p] is missing, [param] stays 100. *)
Lemma value_flag_last_witness :
  example_flags !! "p"%string = Some (typed_option_T param)
  ∧ body any_file example_flags ["prog"; "-p"]%string (init example_vars)
    = Continue (State 2 example_vars)
  ∧ parse any_file example_flags ["prog"; "-p"]%string example_vars
    = Some (State 2 example_vars)
  ∧ ∀ r, parse any_file example_flags ["prog"; "-p"]%string example_vars
         = Some r →
         deref (vars r) (typed_option_T param)
         = deref example_vars (typed_option_T param).
Proof.
  split; [reflexivity|].
  destruct (value_flag_last any_file example_flags "p" (typed_option_T param)
              ["prog"; "-p"]%string example_vars (init example_vars))
    as (Hbody & Hparse & Hkept);
    [reflexivity|reflexivity|apply rtc_refl|reflexivity|reflexivity|].
  split_and!; [exact Hbody|exact Hparse|].
  apply Hkept.
  - by apply example_flags_unshared.
  - simpl. intros H. apply elem_of_cons in H as [H|H]; [discriminate H|].
    by apply elem_of_nil in H.
Defined.

(** C10 on [prog -y -t x]: [param] is not written. *)
Lemma parse_frame_witness :
  parse any_file example_flags ["prog"; "-y"; "-t"; "x"]%string example_vars
  = Some (State 4 (Store {[ param := 100 ]} {[ yesno := true ]}
                         {[ test := "x"%string ]}
                         {[ log := Ofstream None false ]}))
  ∧ deref (Store {[ param := 100 ]} {[ yesno := true ]}
                 {[ test := "x"%string ]} {[ log := Ofstream None false ]})
          (typed_option_T param)
    = deref example_vars (typed_option_T param).
Proof.
  split; [reflexivity|].
  refine (proj2 (parse_frame any_file example_flags
                   ["prog"; "-y"; "-t"; "x"]%string example_vars
                   (State 4 _) eq_refl)
            "p"%string (typed_option_T param) eq_refl _ _).
  - by apply example_flags_unshared.
  - intros s Hs Hlt Htok. apply argv_Some in Htok.
    apply list_elem_of_lookup_2 in Htok.
    repeat (apply elem_of_cons in Htok as [Htok|Htok]; [discriminate Htok|]).
    by apply elem_of_nil in Htok.
Defined.

(** C6 on [prog -p abc]: [param] becomes 0. *)
Lemma int_flag_value_witness :
  example_flags !! "p"%string = Some (typed_option_T param)
  ∧ ∃ s', body any_file example_flags ["prog"; "-p"; "abc"]%string
            (init example_vars) = Continue s'
      ∧ cursor s' = 3
      ∧ generics (vars s') !! param = Some 0.
Proof.
  split; [reflexivity|].
  destruct (int_flag_value any_file example_flags "p" param
              ["prog"; "-p"; "abc"]%string example_vars (init example_vars)
              1 "abc" 100)
    as (s' & Hbody & Hc & Hv & _);
    [reflexivity|apply rtc_refl|reflexivity..|].
  exists s'. split_and!; [exact Hbody|exact Hc|exact Hv].
Defined.

(** C6 as stated fails on [prog -p abc] with [param = 100]: after [parse]
    the variable holds 0, not the value it had before. *)
Lemma int_flag_not_unchanged :
  ∃ r, parse any_file example_flags ["prog"; "-p"; "abc"]%string example_vars
       = Some r
    ∧ generics example_vars !! param = Some 100
    ∧ generics (vars r) !! param = Some 0
    ∧ generics (vars r) !! param ≠ generics example_vars !! param.
Proof. eexists. split; [reflexivity|]. by vm_compute. Qed.

(** C8 on [prog -p 1 -p 2]: [param] holds 2. *)
Lemma last_value_wins_witness :
  example_flags !! "p"%string = Some (typed_option_T param)
  ∧ ∃ s', reaches any_file example_flags
            ["prog"; "-p"; "1"; "-p"; "2"]%string (init example_vars) s'
      ∧ cursor s' = 5
      ∧ parse any_file example_flags ["prog"; "-p"; "1"; "-p"; "2"]%string
          example_vars = Some s'
      ∧ generics (vars s') !! param = Some 2.
Proof.
  split; [reflexivity|].
  destruct (last_value_wins any_file example_flags "p" (typed_option_T param)
              ["prog"; "-p"; "1"; "-p"; "2"]%string example_vars
              (init example_vars) 1 "1" "2")
    as (s' & Hr & Hc & Hvars & Hlast & Hval);
    [reflexivity|reflexivity|apply rtc_refl|reflexivity..|].
  exists s'. split_and!; [exact Hr|exact Hc| |].
  - apply Hlast. left. rewrite Hc. reflexivity.
  - apply Hval; [by eexists|discriminate].
Defined.

(** C8 as stated fails on [prog -l a -l b]: the stream stays on the file
    [a], the second [open] only sets [failbit].  It also fails on an empty
    last value, [prog -p 1 -p ""]: nothing is extracted and [param] keeps
    the 1 of the first value. *)
Lemma ofstream_first_value_wins :
  (∃ r, parse any_file example_flags ["prog"; "-l"; "a"; "-l"; "b"]%string
          example_vars = Some r
     ∧ streams (vars r) !! log = Some (Ofstream (Some "a"%string) true)
     ∧ bound_file <$> streams (vars r) !! log ≠ Some (Some "b"%string))
  ∧ (∃ r, parse any_file example_flags
            ["prog"; "-p"; "1"; "-p"; EmptyString] example_vars = Some r
       ∧ cursor r = 5
       ∧ generics (vars r) !! param = Some 1).
Proof. split; (eexists; split; [reflexivity|]); by vm_compute. Qed.

(** * More on [options::parse] *)

Section parse_more.
Context {T : Type} `{!Extractable T}.
Variable openable : string → bool.
Variable flags : registry.

Local Abbreviation body := (body openable flags).
Local Abbreviation while := (while openable flags).
Local Abbreviation step := (step openable flags).
Local Abbreviation reaches := (reaches openable flags).
Local Abbreviation parse := (parse openable flags).

(** Two argument vectors that agree from index 1 up to (excluding) index
    [k]: an iteration that stays within [k] is the same on both, as long
    as it does not end on a flag whose value is missing in one and present
    in the other. *)
Lemma step_agree (args args' : list string) (k : nat) (s s' : state (T:=T)) :
  (∀ i : nat, (1 ≤ i < k)%nat → args !! i = args' !! i) →
  (length args' ≤ length args ∨ k < length args)%nat →
  1 ≤ cursor s → step args s s' → cursor s' ≤ Z.of_nat k → step args' s s'.
Proof.
  intros Hagree Hlen Hpos [Hlt Hb] Hk.
  pose proof (step_cursor openable flags args s s' (conj Hlt Hb)) as [Hnext _].
  pose proof (body_continue _ _ _ _ _ Hb) as Htok. apply is_flag_true in Htok.
  pose proof (argv_Some _ _ _ _ Htok) as Hi.
  rewrite Hagree in Hi by lia.
  assert (argv args' (cursor s) = argv args (cursor s)) as Heq.
  { rewrite Htok. unfold options.argv. by rewrite Hi. }
  assert (cursor s < argc args') as Hlt'.
  { apply lookup_lt_Some in Hi. unfold options.argc. lia. }
  split; [done|].
  unfold options.body in *. rewrite Heq. rewrite Htok in *. simpl in *.
  destruct (flags !! strip (argv args (cursor s))) as [flag|]; [|done].
  destruct (parse_flag flag (vars s)) as [needs σ1].
  destruct needs; simpl in *; [|done].
  unfold options.argc in *.
  destruct (bool_decide (cursor s < Z.of_nat (length args) - 1)) eqn:Htest.
  - apply bool_decide_eq_true in Htest.
    injection Hb as <-. simpl in Hk.
    assert (args !! Z.to_nat (cursor s + 1) = args' !! Z.to_nat (cursor s + 1))
      as Hv by (apply Hagree; lia).
    destruct (lookup_lt_is_Some_2 args (Z.to_nat (cursor s + 1))) as [v Hv'];
      [lia|].
    rewrite Hv' in Hv. symmetry in Hv. pose proof (lookup_lt_Some _ _ _ Hv).
    rewrite bool_decide_eq_true_2 by lia.
    unfold options.argv. by rewrite Hv, Hv'.
  - apply bool_decide_eq_false in Htest.
    injection Hb as <-. simpl in Hk.
    rewrite bool_decide_eq_false_2 by lia. done.
Qed.

Lemma reaches_agree (args args' : list string) (k : nat) (s r : state (T:=T)) :
  (∀ i : nat, (1 ≤ i < k)%nat → args !! i = args' !! i) →
  (length args' ≤ length args ∨ k < length args)%nat →
  reaches args s r → 1 ≤ cursor s → cursor r ≤ Z.of_nat k →
  reaches args' s r.
Proof.
  intros Hagree Hlen. induction 1 as [|s s1 r Hs Hr IH]; intros Hpos Hk.
  - apply rtc_refl.
  - pose proof (reaches_cursor _ _ _ _ _ Hr).
    pose proof (step_cursor _ _ _ _ _ Hs) as [? _].
    eapply rtc_l.
    + eapply step_agree; [done|done|done|exact Hs|lia].
    + apply IH; lia.
Qed.

(** The result of [parse] stands for every argument vector that agrees on
    the tokens in front of the returned index, and on which the loop is
    left at that index too. *)
Lemma parse_agree (args args' : list string) (σ : store T) (r : state) :
  parse args σ = Some r →
  (∀ i : nat, (1 ≤ i < Z.to_nat (cursor r))%nat → args !! i = args' !! i) →
  (length args' ≤ length args ∨ Z.to_nat (cursor r) < length args)%nat →
  final args' r →
  parse args' σ = Some r.
Proof.
  intros [Hr Hf]%parse_reaches Hagree Hlen Hf'.
  apply parse_reaches. split; [|done].
  pose proof (reaches_cursor _ _ _ _ _ Hr). simpl in *.
  eapply reaches_agree; [exact Hagree|exact Hlen|exact Hr|simpl; lia|lia].
Qed.

(** X1: [argv[0]] is never read: the program name plays no role in what
    [parse] returns or writes. *)
Theorem parse_ignores_program_name (p p' : string) (rest : list string)
    (σ : store T) :
  parse (p :: rest) σ = parse (p' :: rest) σ.
Proof.
  destruct (parse_is_Some openable flags (p :: rest) σ) as [r Hp].
  rewrite Hp. symmetry.
  pose proof Hp as [Hr Hf]%parse_reaches.
  apply reaches_cursor in Hr. simpl in Hr.
  eapply parse_agree; [exact Hp| |left; simpl; lia|].
  - intros [|i] ?; [lia|done].
  - destruct Hf as [Hge|Hnf]; [by left|right].
    unfold options.argv in *.
    destruct (Z.to_nat (cursor r)) as [|n] eqn:Hn; [lia|done].
Qed.

(** X2: the tokens behind the first argument that is not a flag are never
    read: when [parse] returns the index of [tok], the arguments after
    [tok] can be replaced by any others. *)
Theorem parse_ignores_after_positional (pre suf suf' : list string)
    (tok : string) (σ : store T) (r : state) :
  parse (pre ++ tok :: suf) σ = Some r →
  cursor r = Z.of_nat (length pre) →
  parse (pre ++ tok :: suf') σ = Some r.
Proof.
  intros Hp Hc. pose proof Hp as [Hr Hf]%parse_reaches.
  eapply parse_agree; [exact Hp| | |].
  - intros i ?. rewrite !lookup_app_l by lia. done.
  - right. rewrite length_app. simpl. lia.
  - destruct Hf as [Hge|Hnf].
    + unfold options.argc in Hge. rewrite length_app in Hge. simpl in Hge. lia.
    + right. unfold options.argv in *. rewrite Hc, Nat2Z.id in *.
      by rewrite list_lookup_middle in * by done.
Qed.

(** X3: [parse] depends on the arguments in front of the returned index
    only: on the argument vector cut at that index it returns the same
    index and leaves the same variables. *)
Theorem parse_prefix (args : list string) (σ : store T) (r : state) :
  parse args σ = Some r →
  parse (take (Z.to_nat (cursor r)) args) σ = Some r.
Proof.
  intros Hp. pose proof Hp as [Hr Hf]%parse_reaches.
  apply reaches_cursor in Hr. simpl in Hr.
  eapply parse_agree; [exact Hp| | |].
  - intros i ?. by rewrite lookup_take_lt by lia.
  - left. rewrite length_take. lia.
  - left. unfold options.argc. rewrite length_take. lia.
Qed.

(** X4: [parse] never resets a [bool] variable: one that is [true] before
    is [true] after, whatever the arguments and the registry. *)
Theorem parse_never_clears_bool (args : list string) (σ : store T)
    (r : state) (l : loc) :
  parse args σ = Some r →
  bools σ !! l = Some true →
  bools (vars r) !! l = Some true.
Proof.
  intros [Hr _]%parse_reaches Hl.
  by apply (reaches_bool_true openable flags args (init σ) r l).
Qed.

Lemma while_unregistered (toks pre : list string) (σ : store T) (fuel : nat) :
  (∀ name, String "-" name ∈ toks → flags !! name = None) →
  (length toks ≤ fuel)%nat →
  while (pre ++ toks) fuel (State (Z.of_nat (length pre)) σ)
  = Some (State (Z.of_nat (length pre + leading_flags toks)) σ).
Proof.
  revert pre fuel. induction toks as [|tok toks IH]; intros pre fuel Hnone Hfuel.
  - assert (¬ Z.of_nat (length pre) < argc (pre ++ [])) as Hend.
    { unfold options.argc. rewrite length_app. simpl. lia. }
    destruct fuel; simpl; rewrite bool_decide_eq_false_2 by done;
      by rewrite Nat.add_0_r.
  - destruct fuel as [|fuel]; [simpl in Hfuel; lia|].
    assert (argv (pre ++ tok :: toks) (Z.of_nat (length pre)) = tok) as Htok.
    { apply argv_lookup. by apply list_lookup_middle. }
    destruct (is_flag tok) eqn:Hflag.
    + pose proof Hflag as Hname. apply is_flag_true in Hname.
      assert (flags !! strip tok = None) as Hmiss.
      { apply Hnone. rewrite <-Hname. apply list_elem_of_here. }
      rewrite (while_step openable flags _ fuel _
                 (State (Z.of_nat (length pre) + 1) σ)).
      * replace (Z.of_nat (length pre) + 1)
          with (Z.of_nat (length (pre ++ [tok]))) by (rewrite length_app; simpl; lia).
        rewrite (cons_middle tok pre toks), app_assoc.
        rewrite IH.
        -- do 2 f_equal. rewrite length_app. simpl. rewrite Hflag. lia.
        -- intros name Hin. apply Hnone. by apply list_elem_of_further.
        -- simpl in Hfuel. lia.
      * split.
        -- unfold options.argc. rewrite length_app. simpl. lia.
        -- apply (body_unknown openable flags _
                    (State (Z.of_nat (length pre)) σ) (strip tok)); [|done].
           simpl. by rewrite Htok.
    + rewrite while_final; [simpl; by rewrite Hflag, Nat.add_0_r|].
      right. simpl. by rewrite Htok.
Qed.

(** X5: when no argument names a registered flag (for instance with an
    empty registry), [parse] writes nothing and returns 1 plus the number
    of tokens beginning with ['-'] that follow the program name. *)
Theorem parse_unregistered (args : list string) (σ : store T) :
  (∀ name, String "-" name ∈ drop 1 args → flags !! name = None) →
  parse args σ
  = Some (State (1 + Z.of_nat (leading_flags (drop 1 args))) σ).
Proof.
  intros Hnone. destruct args as [|p toks]; [done|].
  unfold options.parse, init. simpl drop in *. rewrite drop_0 in *.
  change (p :: toks) with ([p] ++ toks).
  change 1 with (Z.of_nat (length [p])) at 1.
  rewrite while_unregistered; [|done|simpl; lia].
  do 2 f_equal. simpl length. lia.
Qed.


(** X7: a [bool] flag given again changes nothing: when the loop comes to
    its token and the variable is [true] already, the iteration only moves
    the cursor by one. *)
Theorem bool_flag_again (name : string) (l : loc) (args : list string)
    (s : state (T:=T)) :
  flags !! name = Some (typed_option_bool l) →
  argv args (cursor s) = String "-" name →
  bools (vars s) !! l = Some true →
  body args s = Continue (State (cursor s + 1) (vars s)).
Proof.
  intros Hreg Htok Hl.
  rewrite (body_bool openable flags args s name l Htok Hreg). simpl.
  do 2 f_equal. destruct (vars s) as [g b st fs]. simpl in *. f_equal.
  apply alter_id. intros x Hx. congruence.
Qed.

Lemma alter_alter_ne {A} (f g : A → A) (i j : loc) (m : gmap loc A) :
  i ≠ j → alter f i (alter g j m) = alter g j (alter f i m).
Proof.
  intros Hne. apply map_eq. intros k.
  destruct (decide (k = i)) as [->|Hi]; [|destruct (decide (k = j)) as [->|Hj]];
    repeat first [rewrite lookup_alter_eq | rewrite lookup_alter_ne by done];
    done.
Qed.

(** Values given to options on different variables can be stored in
    either order. *)
Lemma parse_value_commute (o1 o2 : option_handle) (v1 v2 : string)
    (σ : store T) :
  o1 ≠ o2 →
  parse_value openable o1 v1 (parse_value openable o2 v2 σ)
  = parse_value openable o2 v2 (parse_value openable o1 v1 σ).
Proof.
  intros Hne. destruct o1 as [l1|l1|l1|l1], o2 as [l2|l2|l2|l2];
    simpl; try done; f_equal; apply alter_alter_ne; congruence.
Qed.

Lemma body_agree_from (args args' : list string) (j : nat) (s : state (T:=T)) :
  length args = length args' →
  (∀ i : nat, (j ≤ i)%nat → args !! i = args' !! i) →
  Z.of_nat j ≤ cursor s →
  body args s = body args' s.
Proof.
  intros Hlen Hagree Hj. unfold options.body, options.argv, options.argc.
  rewrite Hlen, !Hagree by lia. done.
Qed.

Lemma reaches_agree_from (args args' : list string) (j : nat)
    (s r : state (T:=T)) :
  length args = length args' →
  (∀ i : nat, (j ≤ i)%nat → args !! i = args' !! i) →
  reaches args s r → Z.of_nat j ≤ cursor s → reaches args' s r.
Proof.
  intros Hlen Hagree. induction 1 as [|s s1 r Hs Hr IH]; intros Hj.
  - apply rtc_refl.
  - pose proof (step_cursor _ _ _ _ _ Hs) as [? _].
    destruct Hs as [Hlt Hb]. eapply rtc_l; [|apply IH; lia].
    split; [unfold options.argc in *; by rewrite <-Hlen|].
    by rewrite <-(body_agree_from args args' j).
Qed.

(** X8: options on different variables commute.  When the loop comes to
    [-n1 v1 -n2 v2], both flags taking a value and bound to different
    variables, [parse] returns the same index and leaves the same
    variables as on the arguments with the two pairs exchanged. *)
Theorem options_commute (n1 n2 v1 v2 : string) (o1 o2 : option_handle)
    (pre suf : list string) (σ : store T) (s : state) :
  flags !! n1 = Some o1 → flags !! n2 = Some o2 →
  value_bearing o1 = true → value_bearing o2 = true → o1 ≠ o2 →
  reaches (pre ++ [String "-" n1; v1; String "-" n2; v2] ++ suf) (init σ) s →
  cursor s = Z.of_nat (length pre) →
  parse (pre ++ [String "-" n1; v1; String "-" n2; v2] ++ suf) σ
  = parse (pre ++ [String "-" n2; v2; String "-" n1; v1] ++ suf) σ.
Proof.
  intros Hr1 Hr2 Hv1 Hv2 Hne Hs Hc.
  set (args := pre ++ [String "-" n1; v1; String "-" n2; v2] ++ suf) in *.
  set (args' := pre ++ [String "-" n2; v2; String "-" n1; v1] ++ suf).
  assert (∀ k i tok, [String "-" n1; v1; String "-" n2; v2] !! k = Some tok →
            i = (length pre + k)%nat → args !! i = Some tok) as Hat.
  { intros k i tok Hk ->. unfold args. rewrite lookup_app_r by lia.
    replace (length pre + k - length pre)%nat with k by lia.
    by apply lookup_app_l_Some. }
  assert (∀ k i tok, [String "-" n2; v2; String "-" n1; v1] !! k = Some tok →
            i = (length pre + k)%nat → args' !! i = Some tok) as Hat'.
  { intros k i tok Hk ->. unfold args'. rewrite lookup_app_r by lia.
    replace (length pre + k - length pre)%nat with k by lia.
    by apply lookup_app_l_Some. }
  assert (length args = length args') as Hlen
    by (unfold args, args'; by rewrite !length_app).
  assert (∀ a b c d (i : nat), (length pre + 4 ≤ i)%nat →
            (pre ++ [a; b; c; d] ++ suf) !! i
            = suf !! (i - length pre - 4)%nat) as Htail.
  { intros a b c d i ?. rewrite lookup_app_r by lia.
    by rewrite (lookup_app_r [a; b; c; d]) by (simpl; lia). }
  destruct (parse_is_Some openable flags args σ) as [r Hp].
  rewrite Hp. symmetry. pose proof Hp as [Hr Hf]%parse_reaches.
  pose proof (reaches_cursor _ _ _ _ _ Hs) as Hpos. simpl in Hpos.
  (* the two iterations on [args] *)
  destruct (value_step openable flags args σ s (length pre) n1 o1 v1)
    as (_ & _ & Hs1 & _ & _ & _);
    [done|done|done|lia|by apply (Hat 0%nat); [|lia]
    |by apply (Hat 1%nat); [|lia]|].
  set (s1 := State (cursor s + 2) (parse_value openable o1 v1 (vars s))) in *.
  destruct (value_step openable flags args σ s1 (length pre + 2) n2 o2 v2)
    as (_ & _ & Hs2 & Hnext & _ & _);
    [done|done|done|simpl; lia|by apply (Hat 2%nat); [|lia]
    |by apply (Hat 3%nat); [|lia]|].
  set (s2 := State (cursor s1 + 2) (parse_value openable o2 v2 (vars s1))) in *.
  (* the same on [args'] *)
  assert (reaches args' (init σ) s) as Hs'.
  { eapply (reaches_agree args args' (length pre));
      [|right|exact Hs|simpl; lia|lia].
    - intros i ?. unfold args, args'. by rewrite !lookup_app_l by lia.
    - unfold args. rewrite length_app. simpl. lia. }
  assert (∀ r', reaches args' (init σ) r' → final args' r' →
            options.parse openable flags args' σ = Some r') as Hparse'
    by (intros r' ? ?; by apply parse_reaches).
  destruct (value_step openable flags args' (vars (init σ)) s (length pre)
              n2 o2 v2) as (_ & _ & Hs1' & _ & _ & _);
    [done|done|done|lia|by apply (Hat' 0%nat); [|lia]
    |by apply (Hat' 1%nat); [|lia]|].
  set (s1' := State (cursor s + 2) (parse_value openable o2 v2 (vars s))) in *.
  destruct (value_step openable flags args' (vars (init σ)) s1' (length pre + 2)
              n1 o1 v1) as (_ & _ & Hs2' & _ & _ & _);
    [done|done|done|simpl; lia|by apply (Hat' 2%nat); [|lia]
    |by apply (Hat' 3%nat); [|lia]|].
  assert (State (cursor s1' + 2) (parse_value openable o1 v1 (vars s1')) = s2)
    as Heq.
  { unfold s2, s1, s1'. simpl. f_equal. by apply parse_value_commute. }
  rewrite Heq in Hs2'.
  apply Hparse'.
  - etrans; [exact Hs2'|].
    eapply (reaches_agree_from args args' (length pre + 4));
      [done| |by apply Hnext|unfold s2, s1; simpl; lia].
    intros i ?. unfold args, args'. by rewrite !Htail by lia.
  - pose proof (reaches_cursor _ _ _ _ _ (Hnext r Hp)) as Hge.
    unfold s2, s1 in Hge. simpl in Hge.
    destruct Hf as [Hend|Hnf]; [left|right].
    + unfold options.argc in *. by rewrite <-Hlen.
    + unfold options.argv in *.
      assert (args' !! Z.to_nat (cursor r) = args !! Z.to_nat (cursor r)) as ->;
        [|done].
      unfold args, args'. by rewrite !Htail by lia.
Qed.

End parse_more.

(** * [options::print] *)

Lemma string_leb_trans (a b c : string) :
  String.leb a b = true → String.leb b c = true → String.leb a c = true.
Proof.
  unfold String.leb. revert b c.
  induction a as [|x a IH]; intros [|y b] [|z c]; simpl; try done.
  unfold Ascii.compare.
  destruct (N.compare_spec (N_of_ascii x) (N_of_ascii y)) as [Hxy|Hxy|Hxy],
           (N.compare_spec (N_of_ascii y) (N_of_ascii z)) as [Hyz|Hyz|Hyz],
           (N.compare_spec (N_of_ascii x) (N_of_ascii z)) as [Hxz|Hxz|Hxz];
    try done; try lia.
  apply IH.
Qed.

Lemma string_leb_ltb (a b : string) :
  String.leb a b = true → a ≠ b → String.ltb a b = true.
Proof.
  unfold String.leb, String.ltb. intros Hle Hne.
  destruct (String.compare a b) eqn:Hc; try done.
  by apply String.compare_eq_iff in Hc.
Qed.

#[local] Instance name_le_total : Total name_le.
Proof. intros e1 e2. apply String.leb_total. Qed.

#[local] Instance name_le_trans : Transitive name_le.
Proof. intros e1 e2 e3. apply string_leb_trans. Qed.

Section print_facts.
Context {T : Type} `{!Extractable T} `{!Insertable T}.
Variable openable : string → bool.
Variables name_T name_string name_ofstream : string.
Variable flags : registry.

Local Abbreviation type := (type name_T name_string name_ofstream).
Local Abbreviation row := (row (T:=T) name_T name_string name_ofstream).
Local Abbreviation rows :=
  (rows (T:=T) name_T name_string name_ofstream flags).
Local Abbreviation print :=
  (print (T:=T) name_T name_string name_ofstream flags).

Lemma entries_Permutation : entries flags ≡ₚ map_to_list flags.
Proof. apply merge_sort_Permutation. Qed.

Lemma elem_of_entries name o : (name, o) ∈ entries flags ↔ flags !! name = Some o.
Proof. by rewrite entries_Permutation, elem_of_map_to_list. Qed.

Lemma length_entries : length (entries flags) = size flags.
Proof. by rewrite entries_Permutation, length_map_to_list. Qed.

(** An iteration of the loop of [parse] keeps every variable in place:
    what [value()] could show before, it can show after. *)
Lemma step_value_is_Some args (s s' : state) o :
  step openable flags args s s' →
  is_Some (value o (vars s)) → is_Some (value o (vars s')).
Proof.
  intros [_ Hb]. unfold body in Hb.
  destruct (is_flag _); [|done].
  assert (∀ o' v (σ : store T), is_Some (value o σ) →
            is_Some (value o (snd (parse_flag o' σ)))
            ∧ is_Some (value o (parse_value openable o' v σ))) as Hkeep.
  { intros o' v σ. destruct o as [l|l|l|l], o' as [l'|l'|l'|l']; simpl;
      rewrite ?fmap_is_Some, ?lookup_alter_is_Some; done. }
  destruct (flags !! _) as [flag|]; [|by injection Hb as <-].
  intros Hv.
  pose proof (Hkeep flag EmptyString (vars s) Hv) as [Hpf _].
  destruct (parse_flag flag (vars s)) as [needs σ1]. simpl in Hpf.
  destruct (needs && _); injection Hb as <-; simpl; [|done].
  by apply Hkeep.
Qed.

Lemma reaches_value_is_Some args (s r : state) o :
  reaches openable flags args s r →
  is_Some (value o (vars s)) → is_Some (value o (vars r)).
Proof.
  induction 1 as [|s s1 r Hs _ IH]; [done|].
  intros Hv. apply IH. by eapply step_value_is_Some.
Qed.

(** The entries come by strictly ascending name. *)
Lemma entries_sorted :
  StronglySorted (λ e1 e2, String.ltb e1.1 e2.1 = true) (entries flags).
Proof.
  assert (NoDup (entries flags).*1) as Hnodup.
  { rewrite entries_Permutation. apply NoDup_fst_map_to_list. }
  pose proof (StronglySorted_merge_sort name_le (map_to_list flags)) as Hs.
  fold (entries flags) in Hs.
  induction Hs as [|e es Hs IH Hall]; [constructor|].
  rewrite fmap_cons in Hnodup. apply NoDup_cons in Hnodup as [Hnotin Hnodup].
  constructor; [by apply IH|].
  rewrite Forall_forall in *. intros e' Hin.
  apply string_leb_ltb; [by apply Hall|].
  intros Heq. apply Hnotin. rewrite Heq. by apply list_elem_of_fmap_2.
Qed.

End print_facts.

(** * Writing and reading an [int] *)

Lemma decimal_app (ds1 ds2 : list nat) :
  decimal (ds1 ++ ds2) = decimal ds1 +:+ decimal ds2.
Proof. induction ds1 as [|d ds1 IH]; [done|]. simpl. by rewrite IH. Qed.

Lemma string_app_assoc (a b c : string) : (a +:+ b) +:+ c = a +:+ (b +:+ c).
Proof.
  induction a as [|x a IH]; [done|].
  change (String x ((a +:+ b) +:+ c) = String x (a +:+ (b +:+ c))).
  by f_equal.
Qed.

Lemma string_app_empty (a : string) : a +:+ EmptyString = a.
Proof.
  induction a as [|x a IH]; [done|].
  change (String x (a +:+ EmptyString) = String x a). by f_equal.
Qed.

(** [put_digits] writes a decimal numeral of [n]. *)
Lemma put_digits_decimal (fuel : nat) (n : Z) (acc : string) :
  0 ≤ n < 10 ^ Z.of_nat fuel → (0 < fuel)%nat →
  ∃ ds, ds ≠ [] ∧ Forall (λ d, (d < 10)%nat) ds
      ∧ decimal_value ds = n
      ∧ put_digits fuel n acc = decimal ds +:+ acc.
Proof.
  revert n acc. induction fuel as [|fuel IH]; intros n acc Hn Hfuel; [lia|].
  pose proof (Z.div_mod n 10 ltac:(lia)) as Hdm.
  pose proof (Z.mod_pos_bound n 10 ltac:(lia)) as Hmod.
  cbn [put_digits]. case_bool_decide as Hq.
  - exists [Z.to_nat (n mod 10)]. split_and!; try done.
    + apply Forall_singleton. lia.
    + unfold decimal_value. simpl. lia.
  - assert (0 < fuel)%nat as Hfuel'.
    { destruct fuel; [|lia]. simpl in Hn.
      assert (n / 10 = 0) by (apply Z.div_small; lia). done. }
    assert (0 ≤ n / 10 < 10 ^ Z.of_nat fuel) as Hn'.
    { rewrite Nat2Z.inj_succ, Z.pow_succ_r in Hn by lia.
      split; [apply Z.div_pos; lia|apply Z.div_lt_upper_bound; lia]. }
    destruct (IH (n / 10)
                (String (ascii_of_nat (48 + Z.to_nat (n mod 10))) acc)
                Hn' Hfuel') as (ds & Hne & Hall & Hval & Hput).
    exists (ds ++ [Z.to_nat (n mod 10)]). split_and!.
    + by destruct ds.
    + apply Forall_app. split; [done|]. apply Forall_singleton. lia.
    + unfold decimal_value in *. rewrite fold_left_app, Hval. simpl. lia.
    + rewrite Hput, decimal_app, string_app_assoc. done.
Qed.

Lemma extract_int_minus_decimal d ds old :
  Forall (λ d, (d < 10)%nat) (d :: ds) →
  extract_int (String "-" (decimal (d :: ds))) old
  = clamp (- decimal_value (d :: ds)).
Proof.
  intros Hds. pose proof (Forall_inv Hds) as Hd. simpl in Hd.
  destruct (decimal_char d Hd) as (_ & _ & _ & Hdig).
  unfold extract_int.
  change (skipws (String "-" (decimal (d :: ds))))
    with (String "-" (decimal (d :: ds))).
  cbv beta iota. unfold num_get. rewrite bool_decide_eq_true_2 by done.
  cbn [decimal digits]. rewrite Hdig.
  rewrite digits_decimal by (by eapply Forall_inv_tail). reflexivity.
Qed.

(** What [operator<<] writes for an [int], [operator>>] reads back. *)
Lemma extract_put_int (z old : Z) :
  INT_MIN ≤ z ≤ INT_MAX → extract_int (put_int z) old = z.
Proof.
  intros Hz. unfold put_int, INT_MIN, INT_MAX in *. case_bool_decide as Hneg.
  - destruct (put_digits_decimal 10 (- z) EmptyString)
      as (ds & Hne & Hall & Hval & Hput); [lia|lia|].
    destruct ds as [|d ds]; [done|].
    rewrite Hput, string_app_empty, extract_int_minus_decimal by done.
    rewrite Hval. unfold clamp, INT_MIN, INT_MAX. lia.
  - destruct (put_digits_decimal 10 z EmptyString)
      as (ds & Hne & Hall & Hval & Hput); [lia|lia|].
    destruct ds as [|d ds]; [done|].
    rewrite Hput, string_app_empty, extract_int_decimal by done.
    rewrite Hval. unfold clamp, INT_MIN, INT_MAX. lia.
Qed.

(** X12: what [print] shows for an option, given back to the option as its
    value, leaves the variable as it is: for a string option, for an
    [int] option and (trivially) for a [bool] option.  It does not hold
    for the [ofstream] option, which shows the word [file]. *)
Theorem value_parse_roundtrip (openable : string → bool) (o : option_handle)
    (σ : store Z) (v : string) :
  (∀ l, o ≠ typed_option_ofstream l) →
  (∀ l z, o = typed_option_T l → generics σ !! l = Some z →
          INT_MIN ≤ z ≤ INT_MAX) →
  value o σ = Some v →
  parse_value openable o v σ = σ.
Proof.
  intros Hnofile Hrange Hv. destruct σ as [g b st fs].
  destruct o as [l|l|l|l]; simpl in *; [| done | |by destruct (Hnofile l)].
  - f_equal. apply fmap_Some in Hv as (z & Hz & ->).
    apply alter_id. intros x Hx. assert (x = z) as -> by congruence.
    apply extract_put_int. by eapply Hrange.
  - f_equal. apply alter_id. intros x Hx. congruence.
Qed.

(** * The stream operators *)

Section put_vector_facts.
Context {T : Type} `{!Insertable T}.

Lemma foldl_put_concat (l : list T) (x : T) (acc : string) :
  foldl (λ out y, out +:+ put y +:+ " ") acc l +:+ put x
  = acc +:+ String.concat " " (put <$> l ++ [x]).
Proof.
  revert acc. induction l as [|y l IH]; intros acc; [done|].
  cbn [foldl]. rewrite IH, !string_app_assoc.
  rewrite <-app_comm_cons, fmap_cons. cbn [String.concat].
  destruct (put <$> l ++ [x]) as [|z zs] eqn:Hz; [|done].
  by destruct l.
Qed.

Lemma put_vector_snoc (l : list T) (x : T) :
  put_vector (l ++ [x]) = String.concat " " (put <$> l ++ [x]).
Proof.
  unfold put_vector. rewrite last_snoc, length_app. simpl.
  replace (length l + 1 - 1)%nat with (length l) by lia.
  rewrite take_app_length.
  trans (foldl (λ out y, out +:+ put y +:+ " ") EmptyString l +:+ put x);
    [|by rewrite foldl_put_concat].
  case_bool_decide as Hlen; [done|].
  destruct l; [done|simpl in Hlen; lia].
Qed.

(** The text written for a vector that is not empty. *)
Lemma put_vector_cons (x : T) (l : list T) :
  put_vector (x :: l) = String.concat " " (put <$> x :: l).
Proof.
  generalize (x :: l). intros v.
  destruct v as [|y v _] using rev_ind; [done|]. apply put_vector_snoc.
Qed.

(** X13: a vector is written as its elements with one blank between two
    of them: nothing for the empty vector, no blank in front or at the
    end. *)
Theorem put_vector_concat (v : list T) :
  put_vector v = String.concat " " (put <$> v).
Proof.
  destruct v as [|x l _] using rev_ind; [done|]. apply put_vector_snoc.
Qed.

(** X14: an array with at least one element is written like a vector; for
    [N = 0] nothing is defined. *)
Theorem put_array_concat (N : Z) (a : list T) :
  Z.of_nat (length a) = N →
  put_array N a
  = if bool_decide (1 ≤ N) then Some (String.concat " " (put <$> a)) else None.
Proof.
  intros Hlen. unfold put_array.
  case_bool_decide as HN.
  - rewrite bool_decide_eq_true_2 by tauto.
    destruct a as [|x l _] using rev_ind; [simpl in Hlen; lia|].
    rewrite last_snoc. simpl. f_equal.
    rewrite length_app in Hlen. simpl in Hlen.
    replace (Z.to_nat (N - 1)) with (length l) by lia.
    rewrite take_app_length. by rewrite foldl_put_concat.
  - by rewrite bool_decide_eq_false_2 by tauto.
Qed.

End put_vector_facts.

Lemma string_app_cons (c : ascii) (s r : string) :
  String c s +:+ r = String c (s +:+ r).
Proof. done. Qed.

Lemma skipws_length (s : string) :
  (String.length (skipws s) ≤ String.length s)%nat.
Proof.
  induction s as [|c s IH]; [done|]. simpl.
  destruct (isspace c); simpl; lia.
Qed.

Lemma scan_digits_length (acc : option Z) (s : string) n r :
  scan_digits acc s = (n, r) →
  (String.length r ≤ String.length s)%nat
  ∧ (acc = None → is_Some n → (String.length r < String.length s)%nat).
Proof.
  revert acc. induction s as [|c s IH]; intros acc; simpl.
  - intros [= <- <-]. split; [done|]. intros -> [? ?]. done.
  - destruct (digit c) as [d|].
    + intros [Hle _]%IH. split; [lia|]. intros _ _. lia.
    + intros [= <- <-]. split; [done|]. intros -> [? ?]. done.
Qed.

(** An extraction of an [int] that does not fail takes at least one
    character from the stream. *)
Lemma get_int_consumes (i i' : istream) (t t' : Z) :
  get_int i t = (i', t') → fail i' = false →
  (String.length (rest i') < String.length (rest i))%nat.
Proof.
  unfold get_int. destruct (good i); [|by intros [= <- <-]].
  pose proof (skipws_length (rest i)) as Hsk.
  destruct (skipws (rest i)) as [|c s']; [by intros [= <- <-]|].
  simpl in Hsk.
  assert (∀ text, (String.length text ≤ S (String.length s'))%nat →
            (let '(n, rest') := scan_digits None text in
             ∀ negative : bool,
               match n with
               | Some n =>
                   (Istream rest'
                      (bool_decide ((if negative then - n else n) < INT_MIN
                                    ∨ INT_MAX < (if negative then - n else n)))
                      (bool_decide (rest' = EmptyString)),
                    clamp (if negative then - n else n))
               | None => (Istream rest' true (bool_decide (rest' = EmptyString)), 0)
               end = (i', t') → fail i' = false →
               (String.length (rest i') < String.length (rest i))%nat)) as Hscan.
  { intros text Htext. destruct (scan_digits None text) as [n r'] eqn:Hs.
    apply scan_digits_length in Hs as [_ Hlt].
    intros negative. destruct n as [n|]; intros [= <- <-]; [|done].
    intros _. simpl. specialize (Hlt eq_refl ltac:(by eexists)). lia. }
  repeat case_bool_decide.
  - specialize (Hscan s' ltac:(lia)).
    destruct (scan_digits None s') as [n r']. apply (Hscan true).
  - specialize (Hscan s' ltac:(lia)).
    destruct (scan_digits None s') as [n r']. apply (Hscan false).
  - specialize (Hscan (String c s') ltac:(simpl; lia)).
    destruct (scan_digits None (String c s')) as [n r']. apply (Hscan false).
Qed.

(** The content of the variable before the extraction shows only when the
    extraction fails. *)
Lemma get_int_temp (i : istream) (t t2 : Z) :
  fst (get_int i t) = fst (get_int i t2)
  ∧ (fail (fst (get_int i t)) = false → snd (get_int i t) = snd (get_int i t2)).
Proof.
  unfold get_int. destruct (good i); [|done].
  destruct (skipws (rest i)) as [|c s']; [done|].
  repeat case_bool_decide;
    match goal with
    | |- context [scan_digits None ?text] =>
        destruct (scan_digits None text) as [[n|] r']; done
    end.
Qed.

Lemma get_vector_loop_temp (fuel : nat) (i : istream) (t t2 : Z) (v : list Z) :
  get_vector_loop fuel i t v = get_vector_loop fuel i t2 v.
Proof.
  destruct fuel as [|fuel]; [done|]. simpl.
  change (get i t) with (get_int i t). change (get i t2) with (get_int i t2).
  destruct (get_int_temp i t t2) as [Hfst Hsnd].
  destruct (get_int i t) as [i1 t1], (get_int i t2) as [i2 t2'].
  simpl in *. subst i2. destruct (fail i1); [done|]. by rewrite Hsnd.
Qed.

Lemma get_vector_loop_total (fuel : nat) (i : istream) (t : Z) (v : list Z) :
  (String.length (rest i) < fuel)%nat →
  ∃ i' w, get_vector_loop fuel i t v = Some (i', v ++ w) ∧ fail i' = true.
Proof.
  revert i t v. induction fuel as [|fuel IH]; intros i t v Hfuel; [lia|].
  simpl. change (get i t) with (get_int i t).
  destruct (get_int i t) as [i1 t1] eqn:Hget.
  destruct (fail i1) eqn:Hfail.
  - exists i1, []. by rewrite app_nil_r.
  - pose proof (get_int_consumes _ _ _ _ Hget Hfail).
    destruct (IH i1 t1 (v ++ [t1])) as (i' & w & Hloop & Hf); [lia|].
    exists i', (t1 :: w). by rewrite Hloop, <-app_assoc.
Qed.

Lemma get_vector_loop_mono (fuel fuel' : nat) (i : istream) (t : Z)
    (v : list Z) res :
  get_vector_loop fuel i t v = Some res → (fuel ≤ fuel')%nat →
  get_vector_loop fuel' i t v = Some res.
Proof.
  revert fuel' i t v. induction fuel as [|fuel IH]; intros fuel' i t v; [done|].
  destruct fuel' as [|fuel']; [lia|]. simpl.
  destruct (get i t) as [i1 t1]. destruct (fail i1); [done|].
  intros Hloop ?. apply IH; [done|lia].
Qed.

Lemma get_vector_loop_prefix (fuel : nat) (i i' : istream) (t : Z)
    (v v' v2 : list Z) :
  get_vector_loop fuel i t v = Some (i', v') →
  ∃ w, v' = v ++ w ∧ get_vector_loop fuel i t v2 = Some (i', v2 ++ w).
Proof.
  revert i t v v2. induction fuel as [|fuel IH]; intros i t v v2; [done|].
  simpl. destruct (get i t) as [i1 t1]. destruct (fail i1).
  - intros [= <- <-]. exists []. by rewrite !app_nil_r.
  - intros (w & -> & Hloop)%(IH _ _ _ (v2 ++ [t1])).
    exists (t1 :: w). by rewrite Hloop, <-!app_assoc.
Qed.

(** The loop of the extraction of a vector ends. *)
Lemma get_vector_is_Some (i : istream) (t : Z) (v : list Z) :
  is_Some (get_vector i t v).
Proof.
  destruct (get_vector_loop_total (S (String.length (rest i))) i t v)
    as (i' & w & Hloop & _); [lia|]. by eexists.
Qed.

(** X15: reading a vector of [int] always comes to an end; it keeps the
    elements the vector had and appends the numbers read, leaves the
    stream in the failed state, and what it reads depends neither on the
    content of the vector nor on what the local [temp] starts with. *)
Theorem get_vector_appends (i : istream) (t : Z) (v : list Z) :
  ∃ i' w, get_vector i t v = Some (i', v ++ w)
        ∧ fail i' = true
        ∧ ∀ t2 v2, get_vector i t2 v2 = Some (i', v2 ++ w).
Proof.
  unfold get_vector.
  destruct (get_vector_loop_total (S (String.length (rest i))) i t v)
    as (i' & w & Hloop & Hfail); [lia|].
  exists i', w. split_and!; [done..|].
  intros t2 v2. rewrite (get_vector_loop_temp _ i t2 t).
  destruct (get_vector_loop_prefix _ _ _ _ _ _ v2 Hloop) as (w' & Hw & ->).
  by apply app_inv_head in Hw as ->.
Qed.

(** The text written for an [int] in range is a decimal numeral of its
    absolute value, behind ['-'] when it is negative. *)
Lemma put_int_decimal (z : Z) :
  INT_MIN ≤ z ≤ INT_MAX →
  ∃ d ds, Forall (λ d, (d < 10)%nat) (d :: ds)
        ∧ decimal_value (d :: ds) = Z.abs z
        ∧ put_int z = if bool_decide (z < 0)
                      then String "-" (decimal (d :: ds))
                      else decimal (d :: ds).
Proof.
  intros Hz. unfold put_int, INT_MIN, INT_MAX in *. case_bool_decide as Hneg.
  - destruct (put_digits_decimal 10 (- z) EmptyString)
      as (ds & Hne & Hall & Hval & Hput); [lia|lia|].
    destruct ds as [|d ds]; [done|]. exists d, ds.
    rewrite Hput, string_app_empty. split_and!; [done|lia|done].
  - destruct (put_digits_decimal 10 z EmptyString)
      as (ds & Hne & Hall & Hval & Hput); [lia|lia|].
    destruct ds as [|d ds]; [done|]. exists d, ds.
    rewrite Hput, string_app_empty. split_and!; [done|lia|done].
Qed.

Lemma scan_digits_decimal (ds : list nat) (acc : Z) (r : string) :
  Forall (λ d, (d < 10)%nat) ds →
  (∀ c r', r = String c r' → digit c = None) →
  scan_digits (Some acc) (decimal ds +:+ r)
  = (Some (fold_left (λ acc d, 10 * acc + Z.of_nat d) ds acc), r).
Proof.
  intros Hds Hr. revert acc.
  induction Hds as [|d ds Hd _ IH]; intros acc.
  - change (decimal [] +:+ r) with r. destruct r as [|c r']; [done|].
    simpl. by rewrite (Hr c r').
  - destruct (decimal_char d Hd) as (_ & _ & _ & Hdig).
    cbn [decimal]. rewrite string_app_cons. cbn [scan_digits fold_left].
    rewrite Hdig. apply IH.
Qed.

(** Reading back an [int] that was written, followed by text that does
    not go on with a digit: the number is read and that text is left;
    [eofbit] is set when nothing is left. *)
Lemma get_int_put_int (z t : Z) (r : string) :
  INT_MIN ≤ z ≤ INT_MAX →
  (∀ c r', r = String c r' → digit c = None) →
  get_int (istringstream (put_int z +:+ r)) t
  = (Istream r false (bool_decide (r = EmptyString)), z).
Proof.
  intros Hz Hr.
  destruct (put_int_decimal z Hz) as (d & ds & Hds & Hval & ->).
  pose proof (Forall_inv Hds) as Hd. simpl in Hd.
  destruct (decimal_char d Hd) as (Hsp & Hm & Hp & Hdig).
  unfold get_int, istringstream, good. cbn [fail eof rest negb andb].
  unfold INT_MIN, INT_MAX in Hz.
  case_bool_decide as Hneg.
  - rewrite string_app_cons.
    change (skipws (String "-" (decimal (d :: ds) +:+ r)))
      with (String "-" (decimal (d :: ds) +:+ r)).
    cbv beta iota. rewrite bool_decide_eq_true_2 by done.
    cbn [decimal]. rewrite string_app_cons. cbn [scan_digits]. rewrite Hdig.
    rewrite scan_digits_decimal by (by eauto using Forall_inv_tail).
    change (fold_left _ ds (10 * default 0 None + Z.of_nat d))
      with (decimal_value (d :: ds)).
    rewrite Hval. rewrite bool_decide_eq_false_2 by (unfold INT_MIN, INT_MAX; lia).
    f_equal. unfold clamp, INT_MIN, INT_MAX. lia.
  - cbn [decimal]. rewrite string_app_cons. cbn [skipws]. rewrite Hsp.
    rewrite !bool_decide_eq_false_2 by done.
    cbn [scan_digits]. rewrite Hdig.
    rewrite scan_digits_decimal by (by eauto using Forall_inv_tail).
    change (fold_left _ ds (10 * default 0 None + Z.of_nat d))
      with (decimal_value (d :: ds)).
    rewrite Hval. rewrite bool_decide_eq_false_2 by (unfold INT_MIN, INT_MAX; lia).
    f_equal. unfold clamp, INT_MIN, INT_MAX. lia.
Qed.

Lemma get_int_blank (s : string) (t : Z) :
  get_int (Istream (String " " s) false false) t
  = get_int (Istream s false false) t.
Proof. done. Qed.

Lemma get_vector_loop_blank (fuel : nat) (s : string) (t : Z) (v : list Z) :
  get_vector_loop fuel (Istream (String " " s) false false) t v
  = get_vector_loop fuel (Istream s false false) t v.
Proof.
  destruct fuel as [|fuel]; [done|]. cbn [get_vector_loop].
  change (get ?i ?x) with (get_int i x). by rewrite get_int_blank.
Qed.

(** Reading the numbers of a vector that was written: after as many
    iterations as there are numbers, the loop is at the text behind them. *)
Lemma get_vector_loop_numbers (z : Z) (w v : list Z) (tail : string)
    (t t' : Z) (k : nat) :
  Forall (λ z, INT_MIN ≤ z ≤ INT_MAX) (z :: w) →
  (∀ c r', tail = String c r' → digit c = None) →
  get_vector_loop (length (z :: w) + k)
    (istringstream (String.concat " " (put_int <$> z :: w) +:+ tail)) t v
  = get_vector_loop k (Istream tail false (bool_decide (tail = EmptyString)))
      t' (v ++ z :: w).
Proof.
  revert z v t. induction w as [|z' w IH]; intros z v t Hw Htail.
  - cbn [length fmap list_fmap String.concat Nat.add get_vector_loop].
    change (get ?i ?x) with (get_int i x).
    rewrite get_int_put_int; [|exact (Forall_inv Hw)|done].
    cbn [fail]. apply get_vector_loop_temp.
  - pose proof (Forall_inv Hw) as Hz. apply Forall_inv_tail in Hw.
    change (String.concat " " (put_int <$> z :: z' :: w))
      with (put_int z +:+ " " +:+ String.concat " " (put_int <$> z' :: w)).
    rewrite !string_app_assoc.
    change (length (z :: z' :: w) + k)%nat
      with (S (length (z' :: w) + k)).
    cbn [get_vector_loop]. change (get ?i ?x) with (get_int i x).
    rewrite get_int_put_int; [|done|by intros c r' [= <- <-]].
    cbn [fail]. rewrite bool_decide_eq_false_2 by done.
    change (" " +:+ ?s) with (String " " s).
    rewrite get_vector_loop_blank.
    change (Istream ?x false false) with (istringstream x).
    rewrite (IH z' (v ++ [z]) z Hw Htail). by rewrite <-app_assoc.
Qed.

(** The result with any fuel that suffices is the result of [get_vector]. *)
Lemma get_vector_loop_get_vector (fuel : nat) (i : istream) (t : Z)
    (v : list Z) res :
  get_vector_loop fuel i t v = Some res → get_vector i t v = Some res.
Proof.
  intros Hloop.
  destruct (get_vector_is_Some i t v) as [res' Hget].
  rewrite Hget. unfold get_vector in Hget.
  apply (get_vector_loop_mono _ (fuel + S (String.length (rest i)))) in Hloop;
    [|lia].
  apply (get_vector_loop_mono _ (fuel + S (String.length (rest i)))) in Hget;
    [|lia].
  congruence.
Qed.

(** X16: a vector of [int] that was written is read back as it was: the
    text of [out << w], read with [in >> v], appends exactly [w] to [v]. *)
Theorem get_put_vector (w v : list Z) (t : Z) :
  Forall (λ z, INT_MIN ≤ z ≤ INT_MAX) w →
  get_vector (istringstream (put_vector w)) t v
  = Some (Istream EmptyString true true, v ++ w).
Proof.
  intros Hw. destruct w as [|z w]; [by rewrite app_nil_r|].
  apply (get_vector_loop_get_vector (length (z :: w) + 1)).
  rewrite put_vector_cons.
  rewrite <-(string_app_empty (String.concat _ _)).
  by rewrite (get_vector_loop_numbers z w v EmptyString t t).
Qed.


Lemma scan_digits_digits (acc : option Z) (s : string) :
  fst (scan_digits acc s) = digits acc s.
Proof.
  revert acc. induction s as [|c s IH]; intros acc; [done|].
  simpl. destruct (digit c); [apply IH|done].
Qed.

(** The extraction of [options.extract_int] is the one on a fresh
    string stream. *)
Lemma extract_int_get_int (opt : string) (val : Z) :
  extract_int opt val = snd (get_int (istringstream opt) val).
Proof.
  unfold extract_int, get_int, istringstream, good, num_get.
  cbn [fail eof rest negb andb].
  destruct (skipws opt) as [|c s']; [done|].
  repeat case_bool_decide;
    match goal with
    | |- context [scan_digits None ?text] =>
        rewrite <-(scan_digits_digits None text);
        destruct (scan_digits None text) as [[n|] r']; done
    end.
Qed.

Section vector_option.
Variable openable : string → bool.
Variable flags : registry.
#[local] Existing Instance vector_extractable.

Lemma vector_extract_put (w v : list Z) :
  Forall (λ z, INT_MIN ≤ z ≤ INT_MAX) w →
  extract (T:=list Z) (put_vector w) v = v ++ w.
Proof.
  intros Hw. unfold extract, vector_extractable.
  destruct w as [|z w]; [by rewrite app_nil_r|].
  rewrite (get_vector_loop_get_vector (length (z :: w) + 1) _ _ _
             (Istream EmptyString true true, v ++ z :: w)); [done|].
  rewrite put_vector_cons.
  rewrite <-(string_app_empty (String.concat _ _)).
  by rewrite (get_vector_loop_numbers z w v EmptyString 0 0).
Qed.

(** X18: an option on a vector of [int] collects its values: given twice,
    [-name w1 -name w2], the numbers of both values are appended to the
    vector, in this order; the later value does not replace the earlier
    one. *)
Theorem vector_option_accumulates (name : string) (l : loc)
    (args : list string) (σ : store (list Z)) (s : state) (i : nat)
    (v w1 w2 : list Z) :
  flags !! name = Some (typed_option_T l) →
  reaches openable flags args (init σ) s → cursor s = Z.of_nat i →
  args !! i = Some (String "-" name) →
  args !! (i + 1)%nat = Some (put_vector w1) →
  args !! (i + 2)%nat = Some (String "-" name) →
  args !! (i + 3)%nat = Some (put_vector w2) →
  generics (vars s) !! l = Some v →
  Forall (λ z, INT_MIN ≤ z ≤ INT_MAX) w1 →
  Forall (λ z, INT_MIN ≤ z ≤ INT_MAX) w2 →
  ∃ s', reaches openable flags args s s'
      ∧ cursor s' = cursor s + 4
      ∧ generics (vars s') !! l = Some (v ++ w1 ++ w2).
Proof.
  intros Hreg Hs Hi Htok1 Hv1 Htok2 Hv2 Hv Hw1 Hw2.
  replace (i + 1)%nat with (S i) in Hv1 by lia.
  replace (i + 3)%nat with (S (i + 2)) in Hv2 by lia.
  destruct (value_step openable flags args σ s i name _ _ Hreg eq_refl
              Hs Hi Htok1 Hv1) as (_ & Hstep1 & Hs1 & _ & _ & _).
  set (s1 := State (cursor s + 2)
               (parse_value openable (typed_option_T l) (put_vector w1)
                  (vars s))) in *.
  destruct (value_step openable flags args σ s1 (i + 2) name _ _ Hreg eq_refl
              Hs1 ltac:(simpl; lia) Htok2 Hv2) as (_ & Hstep2 & _ & _ & _ & _).
  eexists. split_and!.
  - eapply rtc_l; [exact Hstep1|]. apply rtc_once. exact Hstep2.
  - simpl. lia.
  - simpl. rewrite !lookup_alter_eq, Hv. simpl.
    by rewrite !vector_extract_put, <-app_assoc.
Qed.

End vector_option.

(** ** Arrays *)

Local Abbreviation array_loop i0 a0 l :=
  (foldl (λ '(i, a) k,
            match a !! k with
            | Some x => let '(i', x') := get (T:=Z) i x in (i', <[k := x']> a)
            | None => (i, a)
            end)
         (i0, a0) l).

Lemma get_int_failed (i : istream) (x : Z) :
  fail i = true → get_int i x = (i, x).
Proof. destruct i as [r f e]. simpl. by intros ->. Qed.

Lemma array_loop_failed (l : list nat) (i : istream) (a : list Z) :
  fail i = true → array_loop i a l = (i, a).
Proof.
  intros Hfail. induction l as [|k l IH]; [done|].
  cbn [foldl]. destruct (a !! k) as [x|] eqn:Hk; [|done].
  change (get i x) with (get_int i x). rewrite get_int_failed by done.
  by rewrite list_insert_id.
Qed.

Lemma array_loop_blank (k : nat) (l : list nat) (s : string) (a : list Z) :
  is_Some (a !! k) →
  array_loop (Istream (String " " s) false false) a (k :: l)
  = array_loop (Istream s false false) a (k :: l).
Proof.
  intros [x Hx]. cbn [foldl]. rewrite Hx.
  change (get ?i x) with (get_int i x). by rewrite get_int_blank.
Qed.

Lemma array_loop_numbers (z : Z) (w pre post suf : list Z) (tail : string) :
  length post = length (z :: w) →
  Forall (λ z, INT_MIN ≤ z ≤ INT_MAX) (z :: w) →
  (∀ c r', tail = String c r' → digit c = None) →
  array_loop (istringstream (String.concat " " (put_int <$> z :: w) +:+ tail))
    (pre ++ post ++ suf) (seq (length pre) (length (z :: w)))
  = (Istream tail false (bool_decide (tail = EmptyString)),
     pre ++ (z :: w) ++ suf).
Proof.
  revert z pre post. induction w as [|z' w IH]; intros z pre post Hlen Hw Htail.
  - destruct post as [|x [|? ?]]; try done.
    cbn [length seq foldl fmap list_fmap String.concat app].
    rewrite list_lookup_middle by done.
    change (get ?i x) with (get_int i x).
    rewrite get_int_put_int; [|exact (Forall_inv Hw)|done].
    rewrite insert_app_r_alt, Nat.sub_diag by lia. done.
  - destruct post as [|x post]; [done|].
    pose proof (Forall_inv Hw) as Hz. apply Forall_inv_tail in Hw.
    change (String.concat " " (put_int <$> z :: z' :: w))
      with (put_int z +:+ " " +:+ String.concat " " (put_int <$> z' :: w)).
    rewrite !string_app_assoc.
    change (seq (length pre) (length (z :: z' :: w)))
      with (length pre :: seq (S (length pre)) (length (z' :: w))).
    rewrite <-!app_comm_cons.
    cbn [foldl]. rewrite list_lookup_middle by done.
    change (get ?i x) with (get_int i x).
    rewrite get_int_put_int; [|done|by intros c r' [= <- <-]].
    rewrite bool_decide_eq_false_2 by done.
    rewrite insert_app_r_alt, Nat.sub_diag by lia. cbn [insert list_insert].
    change (" " +:+ ?s) with (String " " s).
    rewrite (cons_middle z pre (post ++ suf)), app_assoc.
    replace (S (length pre)) with (length (pre ++ [z]))
      by (rewrite length_app; simpl; lia).
    simpl in Hlen.
    assert (is_Some (((pre ++ [z]) ++ post ++ suf) !! length (pre ++ [z])))
      as Hk.
    { apply lookup_lt_is_Some. rewrite !length_app. simpl. lia. }
    change (seq (length (pre ++ [z])) (length (z' :: w)))
      with (length (pre ++ [z])
            :: seq (S (length (pre ++ [z]))) (length w)).
    rewrite (array_loop_blank _ _ _ _ Hk).
    change (Istream ?x false false) with (istringstream x).
    change (length (pre ++ [z])
            :: seq (S (length (pre ++ [z]))) (length w))
      with (seq (length (pre ++ [z])) (length (z' :: w))).
    rewrite (IH z' (pre ++ [z]) post); [|simpl; lia|done..].
    by rewrite <-app_assoc.
Qed.

(** X19: on a stream that has failed, reading an array changes neither
    the stream nor any element of the array. *)
Theorem get_array_failed (N : Z) (i : istream) (a : list Z) :
  fail i = true → get_array N i a = (i, a).
Proof. intros Hfail. unfold get_array. by apply array_loop_failed. Qed.

(** X20: an array of [int] that was written is read back as it was, into
    an array of the same size, whatever its elements were; text that
    follows the numbers is left in the stream. *)
Theorem get_put_array (N : Z) (w a : list Z) (text tail : string) :
  put_array N w = Some text →
  length a = length w →
  Forall (λ z, INT_MIN ≤ z ≤ INT_MAX) w →
  (∀ c r', tail = String c r' → digit c = None) →
  get_array N (istringstream (text +:+ tail)) a
  = (Istream tail false (bool_decide (tail = EmptyString)), w).
Proof.
  intros Hput Hlen Hw Htail. unfold put_array in Hput.
  case_bool_decide as HN; [|done]. destruct HN as [HN1 HN].
  assert (text = String.concat " " (put_int <$> w)) as ->.
  { destruct w as [|x l _] using rev_ind; [simpl in HN; lia|].
    rewrite last_snoc in Hput. simpl in Hput. injection Hput as <-.
    rewrite length_app in HN. simpl in HN.
    replace (Z.to_nat (N - 1)) with (length l) by lia.
    rewrite take_app_length. by rewrite foldl_put_concat. }
  destruct w as [|z w]; [simpl in HN; lia|].
  unfold get_array. replace (Z.to_nat N) with (length (z :: w)) by lia.
  pose proof (array_loop_numbers z w [] a [] tail Hlen Hw Htail) as Hloop.
  cbn [app] in Hloop. rewrite !app_nil_r in Hloop. exact Hloop.
Qed.

(** X21: when the text has fewer numbers than the array has elements and
    goes on with something that is not a number, the elements in front
    are read, the element at which the extraction fails is set to 0, and
    the elements behind it keep their content. *)
Theorem get_array_partial (N : Z) (w a : list Z) (tail : string)
    (c : ascii) (r : string) :
  Z.of_nat (length a) = N → (length w < length a)%nat →
  Forall (λ z, INT_MIN ≤ z ≤ INT_MAX) w →
  (∀ c' r', tail = String c' r' → digit c' = None) →
  skipws tail = String c r →
  digit c = None → c ≠ "-"%char → c ≠ "+"%char →
  get_array N (istringstream (put_vector w +:+ tail)) a
  = (Istream (String c r) true false,
     w ++ 0 :: drop (S (length w)) a).
Proof.
  intros HN Hlen Hw Htail Hsk Hc Hm Hp.
  assert (tail ≠ EmptyString) as Hne by (by intros ->).
  destruct (lookup_lt_is_Some_2 a (length w) Hlen) as [x Hx].
  assert (a = take (length w) a ++ x :: drop (S (length w)) a) as Ha
    by (by rewrite take_drop_middle).
  assert (length (take (length w) a) = length w) as Htake
    by (rewrite length_take; lia).
  unfold get_array.
  replace (Z.to_nat N)
    with (length w + S (length a - length w - 1))%nat by lia.
  rewrite seq_app, foldl_app. cbn [seq Nat.add].
  assert (array_loop (istringstream (put_vector w +:+ tail)) a
            (seq 0 (length w))
          = (Istream tail false false, w ++ x :: drop (S (length w)) a))
    as ->.
  { destruct w as [|z w].
    - simpl in Ha. cbn [length seq foldl app]. by rewrite <-Ha.
    - rewrite put_vector_cons.
      pose proof (array_loop_numbers z w [] (take (length (z :: w)) a)
                    (x :: drop (S (length (z :: w))) a) tail Htake Hw Htail)
        as Hloop.
      cbn [app] in Hloop. rewrite <-Ha in Hloop.
      rewrite bool_decide_eq_false_2 in Hloop by done. exact Hloop. }
  cbn [foldl]. rewrite list_lookup_middle by done.
  change (get ?i x) with (get_int i x).
  assert (get_int (Istream tail false false) x
          = (Istream (String c r) true false, 0)) as ->.
  { unfold get_int, good. cbn [fail eof rest negb andb]. rewrite Hsk.
    rewrite !bool_decide_eq_false_2 by done. cbn [scan_digits].
    rewrite Hc. by rewrite bool_decide_eq_false_2 by done. }
  rewrite insert_app_r_alt, Nat.sub_diag by lia. cbn [insert list_insert].
  by apply array_loop_failed.
Qed.

(** * Instances of the further properties *)

(** X2 on [prog -y in.txt -t x]: what follows [in.txt] does not count. *)
Lemma parse_ignores_after_positional_witness :
  parse any_file example_flags
    (["prog"; "-y"]%string ++ "in.txt"%string :: ["-t"; "x"]%string) example_vars
  = Some (State 2 (Store {[ param := 100 ]} {[ yesno := true ]}
                         {[ test := EmptyString ]}
                         {[ log := Ofstream None false ]}))
  ∧ parse any_file example_flags
      (["prog"; "-y"]%string ++ "in.txt"%string :: ["more"]%string) example_vars
    = Some (State 2 (Store {[ param := 100 ]} {[ yesno := true ]}
                           {[ test := EmptyString ]}
                           {[ log := Ofstream None false ]})).
Proof.
  split; [reflexivity|].
  apply (parse_ignores_after_positional any_file example_flags
           ["prog"; "-y"]%string ["-t"; "x"]%string ["more"]%string "in.txt");
    reflexivity.
Defined.

(** X3 on [prog -y in.txt -t]: the first two arguments give the result. *)
Lemma parse_prefix_witness :
  parse any_file example_flags ["prog"; "-y"; "in.txt"; "-t"]%string
    example_vars
  = Some (State 2 (Store {[ param := 100 ]} {[ yesno := true ]}
                         {[ test := EmptyString ]}
                         {[ log := Ofstream None false ]}))
  ∧ parse any_file example_flags ["prog"; "-y"]%string example_vars
    = Some (State 2 (Store {[ param := 100 ]} {[ yesno := true ]}
                           {[ test := EmptyString ]}
                           {[ log := Ofstream None false ]})).
Proof.
  split; [reflexivity|].
  apply (parse_prefix any_file example_flags
           ["prog"; "-y"; "in.txt"; "-t"]%string example_vars
           (State 2 (Store {[ param := 100 ]} {[ yesno := true ]}
                           {[ test := EmptyString ]}
                           {[ log := Ofstream None false ]}))).
  reflexivity.
Defined.

(** X4 on [prog -t x] with [yesno] set before. *)
Lemma parse_never_clears_bool_witness :
  ∃ r, parse any_file example_flags ["prog"; "-t"; "x"]%string
         (Store {[ param := 100 ]} {[ yesno := true ]}
                {[ test := EmptyString ]} {[ log := Ofstream None false ]})
       = Some r
     ∧ bools (vars r) !! yesno = Some true.
Proof.
  eexists. split; [reflexivity|].
  eapply (parse_never_clears_bool any_file example_flags
            ["prog"; "-t"; "x"]%string); reflexivity.
Defined.

(** X5 with an empty registry on [prog -a -b c -d]. *)
Lemma parse_unregistered_witness :
  parse any_file ∅ ["prog"; "-a"; "-b"; "c"; "-d"]%string example_vars
  = Some (State 3 example_vars).
Proof.
  apply (parse_unregistered any_file ∅
           ["prog"; "-a"; "-b"; "c"; "-d"]%string example_vars).
  intros name _. apply lookup_empty.
Defined.


(** X7 on [prog -y] with [yesno] set before. *)
Lemma bool_flag_again_witness :
  body any_file example_flags ["prog"; "-y"]%string
    (State 1 (Store {[ param := 100 ]} {[ yesno := true ]}
                    {[ test := EmptyString ]} {[ log := Ofstream None false ]}))
  = Continue
      (State (1 + 1)
         (Store {[ param := 100 ]} {[ yesno := true ]}
                {[ test := EmptyString ]} {[ log := Ofstream None false ]})).
Proof.
  apply (bool_flag_again any_file example_flags "y" yesno
           ["prog"; "-y"]%string (State 1 _)); reflexivity.
Defined.

(** X8: [prog -t a -p 5] and [prog -p 5 -t a]. *)
Lemma options_commute_witness :
  parse any_file example_flags
    (["prog"]%string ++ ["-t"; "a"; "-p"; "5"]%string ++ []) example_vars
  = parse any_file example_flags
      (["prog"]%string ++ ["-p"; "5"; "-t"; "a"]%string ++ []) example_vars.
Proof.
  apply (options_commute any_file example_flags "t" "p" "a" "5"
           (typed_option_string test) (typed_option_T param)
           ["prog"]%string [] example_vars (init example_vars));
    [reflexivity|reflexivity|reflexivity|reflexivity|discriminate
    |apply rtc_refl|reflexivity].
Defined.

(** X12: [param] shown as [100] and given the value [100]. *)
Lemma value_parse_roundtrip_witness :
  value (typed_option_T param) example_vars = Some "100"%string
  ∧ parse_value any_file (typed_option_T param) "100" example_vars
    = example_vars.
Proof.
  split; [reflexivity|].
  apply (value_parse_roundtrip any_file (typed_option_T param) example_vars).
  - discriminate.
  - intros l z [= <-] [= <-]. by vm_compute.
  - reflexivity.
Defined.

(** X14 on an array of three. *)
Lemma put_array_concat_witness :
  put_array 3 [1; 2; 3] = Some "1 2 3"%string.
Proof.
  rewrite (put_array_concat 3 [1; 2; 3] eq_refl). reflexivity.
Defined.

(** X16 on the vector [1 -2 30]. *)
Lemma get_put_vector_witness :
  get_vector (istringstream "1 -2 30") 0 [5]
  = Some (Istream EmptyString true true, [5; 1; -2; 30]).
Proof.
  apply (get_put_vector [1; -2; 30] [5] 0).
  repeat constructor; by vm_compute.
Defined.


(** X18 on [prog -v "1 2" -v 3] with the vector holding 5. *)
Lemma vector_option_accumulates_witness :
  ∃ s', reaches (Extractable0:=vector_extractable) any_file
          (make (typed_option_T param) "v" ∅)
          ["prog"; "-v"; "1 2"; "-v"; "3"]%string
          (init (Store {[ param := [5] ]} ∅ ∅ ∅)) s'
      ∧ cursor s' = 1 + 4
      ∧ generics (vars s') !! param = Some ([5] ++ [1; 2] ++ [3]).
Proof.
  apply (vector_option_accumulates any_file
           (make (typed_option_T param) "v" ∅) "v" param
           ["prog"; "-v"; "1 2"; "-v"; "3"]%string
           (Store {[ param := [5] ]} ∅ ∅ ∅)
           (init (Store {[ param := [5] ]} ∅ ∅ ∅)) 1 [5] [1; 2] [3]);
    [reflexivity|apply rtc_refl|reflexivity..
    |repeat constructor; by vm_compute|repeat constructor; by vm_compute].
Defined.

(** X19 on a stream that has failed. *)
Lemma get_array_failed_witness :
  get_array 2 (Istream "1 2" true false) [7; 8]
  = (Istream "1 2" true false, [7; 8]).
Proof. apply (get_array_failed 2 (Istream "1 2" true false)). reflexivity. Defined.

(** X20 on the array [4 5 6], followed by more text. *)
Lemma get_put_array_witness :
  get_array 3 (istringstream ("4 5 6" +:+ " 7")) [1; 2; 3]
  = (Istream " 7" false false, [4; 5; 6]).
Proof.
  apply (get_put_array 3 [4; 5; 6] [1; 2; 3] "4 5 6" " 7");
    [reflexivity|reflexivity|repeat constructor; by vm_compute
    |by intros c r' [= <- <-]].
Defined.

(** X21 on the text [4 x 6] read into an array of three. *)
Lemma get_array_partial_witness :
  get_array 3 (istringstream "4 x 6") [1; 2; 3]
  = (Istream "x 6" true false, [4; 0; 3]).
Proof.
  apply (get_array_partial 3 [4] [1; 2; 3] " x 6" "x" " 6");
    [reflexivity|simpl; lia|repeat constructor; by vm_compute
    |by intros c' r' [= <- <-]|reflexivity|reflexivity
    |discriminate|discriminate].
Defined.

(** * The text written by [options::print] *)

Lemma concat_cons (x : string) (xs : list string) :
  String.concat EmptyString (x :: xs) = x +:+ String.concat EmptyString xs.
Proof. destruct xs; [simpl; by rewrite string_app_empty|done]. Qed.

Lemma concat_app (l1 l2 : list string) :
  String.concat EmptyString (l1 ++ l2)
  = String.concat EmptyString l1 +:+ String.concat EmptyString l2.
Proof.
  induction l1 as [|x l1 IH]; [done|].
  rewrite <-app_comm_cons, !concat_cons, IH. by rewrite string_app_assoc.
Qed.

Lemma occurrences_app (c : ascii) (a b : string) :
  occurrences c (a +:+ b) = (occurrences c a + occurrences c b)%nat.
Proof.
  induction a as [|x a IH]; [done|].
  rewrite string_app_cons. cbn [occurrences]. rewrite IH. lia.
Qed.

Lemma occurrences_concat (c : ascii) (rs : list string) :
  Forall (λ r, occurrences c r = 1%nat) rs →
  occurrences c (String.concat EmptyString rs) = length rs.
Proof.
  induction 1 as [|r rs Hr _ IH]; [done|].
  rewrite concat_cons, occurrences_app, Hr, IH. done.
Qed.

Lemma string_ltb_asym (a b : string) :
  String.ltb a b = true → String.ltb b a = true → False.
Proof.
  unfold String.ltb. rewrite (String.compare_antisym b a).
  by destruct (String.compare a b).
Qed.

Lemma StronglySorted_lookup_lt {A} (R : relation A) (l : list A) i j x y :
  StronglySorted R l → l !! i = Some x → l !! j = Some y → (i < j)%nat →
  R x y.
Proof.
  intros Hs Hi Hj Hlt. rewrite <-(take_drop_middle l i x Hi) in Hs.
  apply StronglySorted_app_1_r, StronglySorted_cons in Hs as [Hall _].
  rewrite Forall_forall in Hall. apply Hall.
  apply list_elem_of_lookup. exists (j - S i)%nat.
  rewrite lookup_drop. by replace (S i + (j - S i))%nat with j by lia.
Qed.

Lemma lookup_split2 {A} (l : list A) i j x y :
  l !! i = Some x → l !! j = Some y → (i < j)%nat →
  ∃ l1 l2 l3, l = l1 ++ x :: l2 ++ y :: l3.
Proof.
  intros Hi Hj Hlt.
  assert (drop (S i) l !! (j - S i)%nat = Some y) as Hj'.
  { rewrite lookup_drop. by replace (S i + (j - S i))%nat with j by lia. }
  exists (take i l), (take (j - S i) (drop (S i) l)),
         (drop (S (j - S i)) (drop (S i) l)).
  by rewrite (take_drop_middle _ _ y Hj'), (take_drop_middle l i x Hi).
Qed.

Section print_text.
Context {T : Type} `{!Extractable T} `{!Insertable T}.
Variable openable : string → bool.
Variables name_T name_string name_ofstream : string.
Variable flags : registry.

Local Abbreviation type := (type name_T name_string name_ofstream).
Local Abbreviation row := (row (T:=T) name_T name_string name_ofstream).
Local Abbreviation rows :=
  (rows (T:=T) name_T name_string name_ofstream flags).
Local Abbreviation print :=
  (print (T:=T) name_T name_string name_ofstream flags).
Local Abbreviation header :=
  ("option" +:+ tab +:+ "default" +:+ tab +:+ "type" +:+ newline)%string.
Local Abbreviation line name v o :=
  (name +:+ tab +:+ v +:+ tab +:+ type o +:+ newline).

(** [print] writes its table when the variable of every registered option
    is there: the head line, then the rows. *)
Lemma print_is_Some (σ : store T) :
  (∀ name o, flags !! name = Some o → is_Some (value o σ)) →
  ∃ rs, rows σ = Some rs
      ∧ print σ = Some (header +:+ String.concat EmptyString rs)
      ∧ Forall2 (λ e text, ∃ v, value e.2 σ = Some v
                              ∧ text = line e.1 v e.2) (entries flags) rs.
Proof.
  intros Hlive.
  assert (is_Some (rows σ)) as [rs Hrs].
  { apply mapM_is_Some, Forall_forall. intros [name o] Hin.
    apply elem_of_entries in Hin. destruct (Hlive _ _ Hin) as [v Hv].
    unfold compose, options.row. simpl. rewrite Hv. by eexists. }
  exists rs. split_and!; [done| |].
  - unfold options.print. fold rows. by rewrite Hrs.
  - apply mapM_Some in Hrs. eapply Forall2_impl; [exact Hrs|].
    intros [name o] text Hrow. unfold options.row in Hrow. simpl in *.
    destruct (value o σ) as [v|]; [|done]. simpl in Hrow.
    injection Hrow as <-. by exists v.
Qed.

(** X9: [print] writes the head line and one line for every registered
    flag: when no flag name, no shown value and no type name holds a line
    break, the text has as many line breaks as there are registered flags,
    plus one.  [parse] returns on every command line, and [print] writes
    its table from the variables it leaves. *)
Theorem print_row_count (σ : store T) :
  (∀ name o, flags !! name = Some o → is_Some (value o σ)) →
  (∀ name o, flags !! name = Some o →
     occurrences "010" name = 0%nat
     ∧ occurrences "010" (type o) = 0%nat
     ∧ ∀ v, value o σ = Some v → occurrences "010" v = 0%nat) →
  (∃ text, print σ = Some text
         ∧ occurrences "010" text = S (size flags))
  ∧ ∀ args, ∃ r text, parse openable flags args σ = Some r
                    ∧ print (vars r) = Some text.
Proof.
  intros Hlive Hclean. split.
  - destruct (print_is_Some σ Hlive) as (rs & Hrs & Hprint & Hrows).
    eexists. split; [exact Hprint|].
    rewrite occurrences_app, occurrences_concat.
    + rewrite <-(Forall2_length _ _ _ Hrows), length_entries. done.
    + apply Forall_forall. intros text Hin.
      apply list_elem_of_lookup in Hin as [i Hi].
      destruct (Forall2_lookup_r _ _ _ _ _ Hrows Hi)
        as ([name o] & He & v & Hv & ->).
      apply list_elem_of_lookup_2, elem_of_entries in He.
      destruct (Hclean _ _ He) as (Hn & Ht & Hval). simpl.
      rewrite !occurrences_app, Hn, Ht, (Hval _ Hv). done.
  - intros args. destruct (parse_is_Some openable flags args σ) as [r Hp].
    pose proof Hp as [Hr _]%parse_reaches.
    destruct (print_is_Some (vars r)) as (rs & _ & Hprint & _);
      [|by eexists _, _].
    intros name o Hreg.
    by apply (reaches_value_is_Some openable flags args (init σ) r o Hr),
             (Hlive name).
Qed.

(** X10: [print] writes the lines by ascending flag name: of two
    registered flags, the line of the one whose name comes first (the
    names compared character by character) stands in the text before the
    line of the other. *)
Theorem print_order (σ : store T) (n1 n2 : string) (o1 o2 : option_handle) :
  (∀ name o, flags !! name = Some o → is_Some (value o σ)) →
  flags !! n1 = Some o1 → flags !! n2 = Some o2 →
  String.ltb n1 n2 = true →
  ∃ v1 v2 a b c,
    value o1 σ = Some v1 ∧ value o2 σ = Some v2
    ∧ print σ
      = Some (header +:+ a +:+ line n1 v1 o1 +:+ b +:+ line n2 v2 o2 +:+ c).
Proof.
  intros Hlive Hreg1 Hreg2 Hlt.
  destruct (print_is_Some σ Hlive) as (rs & _ & Hprint & Hrows).
  apply elem_of_entries, list_elem_of_lookup in Hreg1 as [i1 Hi1].
  apply elem_of_entries, list_elem_of_lookup in Hreg2 as [i2 Hi2].
  assert (i1 < i2)%nat as Hpos.
  { destruct (decide (i1 < i2)%nat) as [|Hge]; [done|]. exfalso.
    destruct (decide (i1 = i2)) as [->|Hne].
    - rewrite Hi1 in Hi2. injection Hi2 as -> _.
      by apply (string_ltb_asym n2 n2).
    - apply (string_ltb_asym n1 n2); [done|].
      apply (StronglySorted_lookup_lt _ _ i2 i1 (n2, o2) (n1, o1)
               (entries_sorted flags) Hi2 Hi1). lia. }
  destruct (Forall2_lookup_l _ _ _ _ _ Hrows Hi1) as (t1 & Ht1 & v1 & Hv1 & ->).
  destruct (Forall2_lookup_l _ _ _ _ _ Hrows Hi2) as (t2 & Ht2 & v2 & Hv2 & ->).
  destruct (lookup_split2 rs i1 i2 _ _ Ht1 Ht2 Hpos) as (l1 & l2 & l3 & ->).
  exists v1, v2, (String.concat EmptyString l1),
         (String.concat EmptyString l2), (String.concat EmptyString l3).
  split_and!; [done..|]. rewrite Hprint. f_equal. simpl fst. simpl snd.
  rewrite concat_app, concat_cons, concat_app, concat_cons.
  by rewrite !string_app_assoc.
Qed.

(** X11: [print] shows the current content of the variables, not what they
    held when the option was made: when the loop of [parse] came to
    [-name v] for a string option and no later token at the cursor names a
    flag on the same variable, the text [print] writes after [parse] has
    the line of [name] with [v] in its second column. *)
Theorem print_shows_current (name : string) (l : loc) (args : list string)
    (σ : store T) (s : state) (i : nat) (v old : string) :
  (∀ name o, flags !! name = Some o → is_Some (value o σ)) →
  flags !! name = Some (typed_option_string l) →
  reaches openable flags args (init σ) s → cursor s = Z.of_nat i →
  args !! i = Some (String "-" name) → args !! S i = Some v →
  strings (vars s) !! l = Some old →
  (∀ r, parse openable flags args σ = Some r →
        unresolved openable flags args
          (State (cursor s + 2)
             (parse_value openable (typed_option_string l) v (vars s)))
          r (typed_option_string l)) →
  ∃ r a b,
    parse openable flags args σ = Some r
    ∧ print (vars r)
      = Some (header +:+ a +:+ line name v (typed_option_string l) +:+ b).
Proof.
  intros Hlive Hreg Hs Hi Htok Hval Hold Hlater.
  destruct (value_step openable flags args σ s i name _ v Hreg eq_refl
              Hs Hi Htok Hval) as (_ & _ & _ & _ & _ & Hkeep).
  destruct (parse_is_Some openable flags args σ) as [r Hp].
  specialize (Hkeep r Hp (Hlater r Hp)). simpl in Hkeep.
  rewrite lookup_alter_eq, Hold in Hkeep. simpl in Hkeep.
  assert (strings (vars r) !! l = Some v) as Hv
    by (destruct (strings (vars r) !! l); by simplify_eq/=).
  pose proof Hp as [Hr _]%parse_reaches.
  destruct (print_is_Some (vars r)) as (rs & _ & Hprint & Hrows).
  { intros name' o Hreg'.
    by apply (reaches_value_is_Some openable flags args (init σ) r o Hr),
             (Hlive name'). }
  apply elem_of_entries, list_elem_of_lookup in Hreg as [k Hk].
  destruct (Forall2_lookup_l _ _ _ _ _ Hrows Hk) as (t & Ht & v' & Hv' & ->).
  simpl in Hv'. rewrite Hv in Hv'. injection Hv' as <-.
  apply list_elem_of_lookup_2, list_elem_of_split in Ht as (l1 & l2 & ->).
  exists r, (String.concat EmptyString l1), (String.concat EmptyString l2).
  split; [done|]. rewrite Hprint. f_equal. simpl fst. simpl snd.
  rewrite concat_app, concat_cons. by rewrite !string_app_assoc.
Qed.

End print_text.

(** ** Instances on the example registry *)

(** The registered flags of the example, by cases. *)
Lemma example_flags_cases (name : string) (o : option_handle) :
  example_flags !! name = Some o →
  (name, o) ∈ [("l"%string, typed_option_ofstream log);
               ("p"%string, typed_option_T param);
               ("t"%string, typed_option_string test);
               ("y"%string, typed_option_bool yesno)].
Proof.
  intros Hreg. apply (elem_of_entries example_flags) in Hreg.
  assert (entries example_flags
          = [("l"%string, typed_option_ofstream log);
             ("p"%string, typed_option_T param);
             ("t"%string, typed_option_string test);
             ("y"%string, typed_option_bool yesno)]) as <-
    by (vm_compute; reflexivity).
  exact Hreg.
Qed.

Lemma example_vars_printable (name : string) (o : option_handle) :
  example_flags !! name = Some o → is_Some (value o example_vars).
Proof.
  intros Hin%example_flags_cases.
  repeat (apply elem_of_cons in Hin as [[= -> ->]|Hin];
          [by eexists|]).
  by apply elem_of_nil in Hin.
Qed.

(** X9 on the example: four flags, five lines; and the table is still
    written after [prog -p 7 -y]. *)
Lemma print_row_count_witness :
  (∃ text, print "i" "Ss" "St14basic_ofstream" example_flags example_vars
           = Some text
         ∧ occurrences "010" text = 5%nat)
  ∧ ∃ r text,
      parse any_file example_flags ["prog"; "-p"; "7"; "-y"]%string
        example_vars = Some r
      ∧ print "i" "Ss" "St14basic_ofstream" example_flags (vars r)
        = Some text.
Proof.
  destruct (print_row_count any_file "i" "Ss" "St14basic_ofstream"
              example_flags example_vars example_vars_printable)
    as [Hcount Hafter].
  - intros name o Hin%example_flags_cases.
    repeat (apply elem_of_cons in Hin as [[= -> ->]|Hin];
            [split_and!; [reflexivity..|];
             intros v [= <-]; reflexivity|]).
    by apply elem_of_nil in Hin.
  - split; [exact Hcount|].
    exact (Hafter ["prog"; "-p"; "7"; "-y"]%string).
Defined.

(** X10 on the example: the line of [l] stands before the line of [y],
    though [y] was registered first. *)
Lemma print_order_witness :
  ∃ a b c,
    print "i" "Ss" "St14basic_ofstream" example_flags example_vars
    = Some ("option" +:+ tab +:+ "default" +:+ tab +:+ "type" +:+ newline
            +:+ a
            +:+ ("l" +:+ tab +:+ "file" +:+ tab +:+ "St14basic_ofstream"
                 +:+ newline)
            +:+ b
            +:+ ("y" +:+ tab +:+ "0" +:+ tab +:+ "bool" +:+ newline)
            +:+ c).
Proof.
  destruct (print_order "i" "Ss" "St14basic_ofstream" example_flags
              example_vars "l" "y" (typed_option_ofstream log)
              (typed_option_bool yesno) example_vars_printable
              eq_refl eq_refl eq_refl)
    as (v1 & v2 & a & b & c & [= <-] & [= <-] & Hprint).
  exists a, b, c. exact Hprint.
Defined.

(** X11 on [prog -t new -y]: the line of [t] shows [new]. *)
Lemma print_shows_current_witness :
  ∃ r a b,
    parse any_file example_flags ["prog"; "-t"; "new"; "-y"]%string
      example_vars = Some r
    ∧ print "i" "Ss" "St14basic_ofstream" example_flags (vars r)
      = Some ("option" +:+ tab +:+ "default" +:+ tab +:+ "type" +:+ newline
              +:+ a
              +:+ ("t" +:+ tab +:+ "new" +:+ tab +:+ "Ss" +:+ newline)
              +:+ b).
Proof.
  apply (print_shows_current any_file "i" "Ss" "St14basic_ofstream"
           example_flags "t" test ["prog"; "-t"; "new"; "-y"]%string
           example_vars (init example_vars) 1 "new" EmptyString
           example_vars_printable eq_refl (rtc_refl _ _) eq_refl eq_refl
           eq_refl eq_refl).
  intros r Hp. vm_compute in Hp. injection Hp as <-.
  intros s1 name Hs1%reaches_cursor Hlt Hname. simpl in Hs1, Hlt.
  assert (cursor s1 = 3) as Hc by lia. rewrite Hc in Hname.
  vm_compute in Hname. injection Hname as <-. by vm_compute.
Defined.
